(** * rotatingCaliper: minimum-area rectangle of a convex polygon

    A shallow embedding of [src/rotatingCaliper.ts].  The program is written
    over JavaScript numbers and three.js [Vector2] objects; it is embedded
    here over an abstract number interface, whose instance is binary64
    floating point ([PrimFloat]), which is what a JavaScript number is.
    The theorems are stated for every instance of the interface, and so
    for binary64, or for binary64 itself.  What they need of the
    comparisons is the laws of [order_laws], which binary64 numbers
    satisfy, NaN, infinities and signed zeros included (lemma
    [float_order_laws]).

    Objects that outlive one call (the two module-level vectors [perpE] and
    [u1], and the caller's array) live in an explicit heap which every
    function threads through. *)

From Stdlib Require Import ZArith QArith Reals Lra Lia Bool.
From Stdlib Require Import PrimFloat FloatOps FloatAxioms SpecFloat.
From stdpp Require Import base option list sorting.

(** ** Numbers *)

(** The operations of a JavaScript number that the program uses.  [flt],
    [fle] and [feq] are [<], [<=] and [===]; [>] is [flt] with its arguments
    exchanged. *)
Class Number (F : Type) := {
  f0 : F;
  f1 : F;
  fhalf : F;
  fadd : F -> F -> F;
  fsub : F -> F -> F;
  fmul : F -> F -> F;
  fdiv : F -> F -> F;
  fneg : F -> F;
  flt : F -> F -> bool;
  fle : F -> F -> bool;
  feq : F -> F -> bool
}.

(** [Math.sqrt] and [Math.abs], used only by the final geometry. *)
Class NumberMath (F : Type) := {
  fsqrt : F -> F;
  fabs : F -> F
}.

Declare Scope num_scope.
Delimit Scope num_scope with num.
Infix "+" := fadd : num_scope.
Infix "-" := fsub : num_scope.
Infix "*" := fmul : num_scope.
Infix "/" := fdiv : num_scope.
Notation "- a" := (fneg a) : num_scope.
Infix "<?" := flt : num_scope.
Infix "<=?" := fle : num_scope.
Infix "=?" := feq : num_scope.
Notation "a >? b" := (flt b a) : num_scope.

#[global] Instance float_Number : Number float := {|
  f0 := 0%float;
  f1 := 1%float;
  fhalf := 0.5%float;
  fadd := PrimFloat.add;
  fsub := PrimFloat.sub;
  fmul := PrimFloat.mul;
  fdiv := PrimFloat.div;
  fneg := PrimFloat.opp;
  flt := PrimFloat.ltb;
  fle := PrimFloat.leb;
  feq := PrimFloat.eqb
|}.

#[global] Instance float_NumberMath : NumberMath float := {|
  fsqrt := PrimFloat.sqrt;
  fabs := PrimFloat.abs
|}.

(** The laws of [<], [<=] and [===] that the statements about comparisons
    rest on.  They are laws of IEEE 754 comparisons: a comparison with NaN
    is false, so that NaN is below, above and equal to nothing, and [-0]
    equals [0]. *)
Record order_laws (F : Type) `{Number F} : Prop := {
  flt_irrefl : forall a : F, flt a a = false;
  flt_trans : forall a b c : F,
    flt a b = true -> flt b c = true -> flt a c = true;
  flt_feq_trans : forall a b c : F,
    flt a b = true -> feq b c = true -> flt a c = true;
  feq_flt_trans : forall a b c : F,
    feq a b = true -> flt b c = true -> flt a c = true;
  feq_trans : forall a b c : F,
    feq a b = true -> feq b c = true -> feq a c = true;
  feq_sym : forall a b : F, feq a b = true -> feq b a = true;
  fle_trans : forall a b c : F,
    fle a b = true -> fle b c = true -> fle a c = true;
  feq_neg_zero : feq (fneg f0) (f0 : F) = true
}.

(** ** Results of a call: a value, or a JavaScript [TypeError] *)

Inductive outcome (A : Type) : Type :=
| Ok (a : A)
| TypeError.
Arguments Ok {A} a.
Arguments TypeError {A}.

Section Program.
Context {F : Type} `{Number F}.
Local Open Scope num_scope.

(** ** three.js [Vector2] *)

Record Vector2 := mkVector2 { x : F; y : F }.

(** The methods the program calls, with the bodies they have in three.js.
    Methods that update [this] return the updated vector; the callers below
    say which object receives it.  [new Vector2(a, b)] and [v.set(a, b)]
    are both [mkVector2 a b], and [clone] is the identity on values. *)
Definition subVectors (a b : Vector2) : Vector2 :=
  mkVector2 (x a - x b) (y a - y b).
Definition sub (this v : Vector2) : Vector2 :=
  mkVector2 (x this - x v) (y this - y v).
Definition addv (this v : Vector2) : Vector2 :=
  mkVector2 (x this + x v) (y this + y v).
Definition negate (this : Vector2) : Vector2 :=
  mkVector2 (- x this) (- y this).
Definition multiplyScalar (this : Vector2) (s : F) : Vector2 :=
  mkVector2 (x this * s) (y this * s).
Definition dot (this v : Vector2) : F :=
  x this * x v + y this * y v.
Definition lengthSq (this : Vector2) : F :=
  x this * x this + y this * y this.
Definition toArray (this : Vector2) : F * F := (x this, y this).

(** ** The program's data *)

(** [box.u[0]] is always an object of the box's own.  [box.u[1]] is either
    an object of its own or, once [updateSupport] has run, the module-level
    vector [u1] itself. *)
Inductive VecRef :=
| Own (v : Vector2)
| ModuleU1.

Record Box := mkBox {
  u0 : Vector2;
  u1_ref : VecRef;
  index : list nat;
  sqrLenU0 : F;
  area : F
}.

Record AngleInfo := mkAngleInfo {
  sinThetaSqr : F;
  indexOfBox : nat
}.

(** What outlives a call: the module-level [perpE] and [u1], and the array
    the caller passes. *)
Record Heap := mkHeap {
  perpE : Vector2;
  u1 : Vector2;
  hull : list (F * F)
}.

Definition M (A : Type) : Type := Heap -> Heap * outcome A.

#[global] Instance M_ret : MRet M := fun A a h => (h, Ok a).
#[global] Instance M_bind : MBind M := fun A B f m h =>
  match m h with
  | (h', Ok a) => f a h'
  | (h', TypeError) => (h', TypeError)
  end.

Definition throw {A} : M A := fun h => (h, TypeError).
Definition get_perpE : M Vector2 := fun h => (h, Ok (perpE h)).
Definition get_u1 : M Vector2 := fun h => (h, Ok (u1 h)).
Definition get_hull : M (list (F * F)) := fun h => (h, Ok (hull h)).
Definition set_perpE (v : Vector2) : M unit :=
  fun h => (mkHeap v (u1 h) (hull h), Ok tt).
Definition set_u1 (v : Vector2) : M unit :=
  fun h => (mkHeap (perpE h) v (hull h), Ok tt).

(** [a[i]] followed by a property access: a [TypeError] when [a[i]] is
    [undefined]. *)
Definition at_ {A} (a : list A) (i : nat) : M A :=
  match a !! i with
  | Some v => mret v
  | None => throw
  end.

(** [box.index[k]].  The array always has four entries (lemmas
    [smallestBox_run], [updateSupport_run]) and the program only reads it
    at 0..3. *)
Definition ix (b : Box) (k : nat) : nat := default 0 (index b !! k).

Definition read_ref (r : VecRef) : M Vector2 :=
  match r with
  | Own v => mret v
  | ModuleU1 => get_u1
  end.

(** [box.u[k]] for [k] 0 or 1. *)
Definition box_u (b : Box) (k : nat) : M Vector2 :=
  match k with
  | 0 => mret (u0 b)
  | _ => read_ref (u1_ref b)
  end.

(** [box.u[k].negate()]: updates the vector in place, wherever it lives,
    and returns it. *)
Definition box_u_negate (b : Box) (k : nat) : M (Vector2 * Box) :=
  match k with
  | 0 =>
      let d := negate (u0 b) in
      mret (d, mkBox d (u1_ref b) (index b) (sqrLenU0 b) (area b))
  | _ =>
      match u1_ref b with
      | Own v =>
          let d := negate v in
          mret (d, mkBox (u0 b) (Own d) (index b) (sqrLenU0 b) (area b))
      | ModuleU1 =>
          v ← get_u1;
          let d := negate v in
          _ ← set_u1 d;
          mret (d, b)
      end
  end.

(** [cloneDeep(box)]: every vector is copied. *)
Definition cloneDeep (b : Box) : M Box :=
  v ← read_ref (u1_ref b);
  mret (mkBox (u0 b) (Own v) (index b) (sqrLenU0 b) (area b)).

(** ** smallestBox *)

(** The two arrays that the [forEach] of [smallestBox] updates:
    [box.index] and [support]. *)
Record Scan := mkScan {
  scan_index : list nat;
  support : list Vector2
}.

(** [support[k]], an array of four vectors read at 1..3. *)
Definition sup (s : Scan) (k : nat) : Vector2 :=
  default (mkVector2 f0 f0) (support s !! k).

(** The body of the [forEach] callback for vertex [i]. *)
Definition scan_vertex (b_u0 b_u1 origin : Vector2) (s : Scan)
    (i : nat) (vertex : Vector2) : Scan :=
  let diff := subVectors vertex origin in
  let v := mkVector2 (dot b_u0 diff) (dot b_u1 diff) in
  let s :=
    if (x v >? x (sup s 1)) || ((x v =? x (sup s 1)) && (y v >? y (sup s 1)))
    then mkScan (<[1 := i]> (scan_index s)) (<[1 := v]> (support s))
    else s in
  let s :=
    if (y v >? y (sup s 2)) || ((y v =? y (sup s 2)) && (x v <? x (sup s 2)))
    then mkScan (<[2 := i]> (scan_index s)) (<[2 := v]> (support s))
    else s in
  let s :=
    if (x v <? x (sup s 3)) || ((x v =? x (sup s 3)) && (y v <? y (sup s 3)))
    then mkScan (<[3 := i]> (scan_index s)) (<[3 := v]> (support s))
    else s in
  s.

Fixpoint scan_from (b_u0 b_u1 origin : Vector2) (s : Scan)
    (i : nat) (vertices : list Vector2) : Scan :=
  match vertices with
  | [] => s
  | vertex :: rest =>
      scan_from b_u0 b_u1 origin (scan_vertex b_u0 b_u1 origin s i vertex)
        (S i) rest
  end.

Definition smallestBox (i0 i1 : nat) (vertices : list Vector2) : outcome Box :=
  match vertices !! i1, vertices !! i0 with
  | Some vi1, Some vi0 =>
      let b_u0 := subVectors vi1 vi0 in
      let b_u1 := mkVector2 (- y b_u0) (x b_u0) in
      let sqr := dot b_u0 b_u0 in
      let origin := vi1 in
      let s0 := mkScan [i1; i1; i1; i1]
                  [mkVector2 f0 f0; mkVector2 (- f0) (- f0);
                   mkVector2 (- f0) (- f0); mkVector2 f0 f0] in
      let s := scan_from b_u0 b_u1 origin s0 0 vertices in
      let scaledWidth := x (sup s 1) - x (sup s 3) in
      let scaledHeight := y (sup s 2) in
      Ok (mkBox b_u0 (Own b_u1) (scan_index s) sqr
            ((scaledWidth * scaledHeight) / sqr))
  | _, _ => TypeError
  end.

(** ** computeAngles *)

(** One round of the loop [for (k0 = 3, k1 = 0; k1 < 4; k0 = k1++)].  The
    candidate buffer [angleInfo] is the four-slot array the caller allocates
    once with [new Array(4)]; [None] is a slot never written. *)
Definition angle_side (vertices : list Vector2)
    (st : Box * list (option AngleInfo) * nat) (k0 k1 : nat)
    : M (Box * list (option AngleInfo) * nat) :=
  let '(box, angleInfo, angleNum) := st in
  if bool_decide (ix box k0 ≠ ix box k1) then
    '(d, box) ←
      (if negb (Nat.eqb (Nat.land k0 2) 0)
       then box_u_negate box (Nat.land k0 1)
       else d ← box_u box (Nat.land k0 1); mret (d, box));
    let j0 := ix box k0 in
    let j1 := if Nat.eqb (j0 + 1) (length vertices) then 0%nat else (j0 + 1)%nat in
    vj1 ← at_ vertices j1;
    vj0 ← at_ vertices j0;
    let e := sub vj1 vj0 in
    _ ← set_perpE (mkVector2 (- y e) (x e));
    p ← get_perpE;
    let dp := dot p d in
    let dsqrslen := dot d d in
    let esqrlen := dot e e in
    let s := (dp * dp) / (esqrlen * dsqrslen) in
    mret (box, <[angleNum := Some (mkAngleInfo s k0)]> angleInfo, S angleNum)
  else mret st.

(** Returns the [boolean] result together with the objects it updates:
    the box, the candidate buffer and [angleNum.value]. *)
Definition computeAngles (vertices : list Vector2) (box : Box)
    (angleInfo : list (option AngleInfo))
    : M (bool * Box * list (option AngleInfo) * nat) :=
  st ← angle_side vertices (box, angleInfo, 0%nat) 3 0;
  st ← angle_side vertices st 0 1;
  st ← angle_side vertices st 1 2;
  '(box, angleInfo, angleNum) ← angle_side vertices st 2 3;
  mret (Nat.ltb 0 angleNum, box, angleInfo, angleNum).

(** ** sortAngles *)

(** [angleInfo.map((a, index) => index)]: [map] skips the slots never
    written, and [sort] leaves them at the end of the array; the list holds
    the indices of the written slots, and [sort[k]] beyond it is
    [undefined]. *)
Fixpoint filled_from (i : nat) (angleInfo : list (option AngleInfo)) : list nat :=
  match angleInfo with
  | [] => []
  | Some _ :: rest => i :: filled_from (S i) rest
  | None :: rest => filled_from (S i) rest
  end.

(** The sign of a comparator's result, as [sort] reads it: negative,
    positive, or neither. *)
Definition sign (v : F) : comparison :=
  if v <? f0 then Lt else if f0 <? v then Gt else Eq.

(** The comparison function passed to [sort]. *)
Definition compareAngles (angleInfo : list (option AngleInfo)) (angleNum : nat)
    (a b : nat) : comparison :=
  match angleInfo !! a, angleInfo !! b with
  | Some (Some ia), Some (Some ib) =>
      if Nat.ltb angleNum 4 && (sinThetaSqr ia =? sinThetaSqr ib)
      then Nat.compare (indexOfBox ib) (indexOfBox ia)
      else sign (sinThetaSqr ia - sinThetaSqr ib)
  | _, _ => Eq
  end.

(** [Array.prototype.sort]: a stable sort; for a comparison function that
    is a consistent ordering every stable sort returns the same array, here
    an insertion sort.  When a candidate holds NaN the comparison function
    is not consistent and the order of the result is the engine's own:
    what is proved for every input uses only that the result is a
    permutation of the array ([js_sort_perm]), and the order is used on
    inputs whose candidates are numbers. *)
Fixpoint insert_sorted (cmp : nat -> nat -> comparison) (a : nat)
    (l : list nat) : list nat :=
  match l with
  | [] => [a]
  | b :: rest =>
      match cmp a b with
      | Gt => b :: insert_sorted cmp a rest
      | _ => a :: l
      end
  end.

Definition js_sort (cmp : nat -> nat -> comparison) (l : list nat) : list nat :=
  foldr (insert_sorted cmp) [] l.

Definition sortAngles (angleInfo : list (option AngleInfo)) (angleNum : nat)
    : list nat :=
  if Nat.eqb angleNum 0 then [0; 1; 2; 3]%nat
  else js_sort (compareAngles angleInfo angleNum) (filled_from 0 angleInfo).

(** ** updateSupport *)

(** [angleInfo[sort[k]]] followed by a property access. *)
Definition angle_at (angleInfo : list (option AngleInfo)) (sort : list nat)
    (k : nat) : M AngleInfo :=
  match sort !! k with
  | Some i =>
      match angleInfo !! i with
      | Some (Some a) => mret a
      | _ => throw
      end
  | None => throw
  end.

Definition set_index (b : Box) (k v : nat) : Box :=
  mkBox (u0 b) (u1_ref b) (<[k := v]> (index b)) (sqrLenU0 b) (area b).

(** [a[i] = v] on an array: beyond the end, JavaScript extends the array,
    and the slots in between read as [undefined], which is falsy. *)
Definition assign (a : list bool) (i : nat) (v : bool) : list bool :=
  if Nat.ltb i (length a) then <[i := v]> a
  else a ++ replicate (i - length a) false ++ [v].

(** The first loop: rounds [k], [k+1], ... of [for (k = 0; k < angleNum.value; ++k)]. *)
Fixpoint advance (angleInfo : list (option AngleInfo)) (sort : list nat)
    (vertices : list Vector2) (minAngle : AngleInfo) (k rounds : nat)
    (box : Box) (parallel : nat) : M (Box * nat) :=
  match rounds with
  | O => mret (box, parallel)
  | S rounds =>
      curAngle ← angle_at angleInfo sort k;
      if sinThetaSqr curAngle =? sinThetaSqr minAngle then
        let i := indexOfBox curAngle in
        let box := set_index box i (ix box i + 1) in
        let box :=
          if Nat.eqb (ix box i) (length vertices) then set_index box i 0 else box in
        advance angleInfo sort vertices minAngle (S k) rounds box (S parallel)
      else advance angleInfo sort vertices minAngle (S k) rounds box parallel
  end.

(** The second loop: [for (k = 0; k < parallel; k++)]. *)
Fixpoint mark (angleInfo : list (option AngleInfo)) (sort : list nat)
    (box : Box) (k rounds : nat) (visited : list bool) : M (list bool) :=
  match rounds with
  | O => mret visited
  | S rounds =>
      a ← angle_at angleInfo sort k;
      mark angleInfo sort box (S k) rounds
        (assign visited (ix box (indexOfBox a)) true)
  end.

(** Returns the [boolean] result together with the box and the [visited]
    array as it leaves them. *)
Definition updateSupport (angleInfo : list (option AngleInfo)) (angleNum : nat)
    (sort : list nat) (vertices : list Vector2) (visited : list bool)
    (box : Box) : M (bool * Box * list bool) :=
  minAngle ← angle_at angleInfo sort 0;
  '(box, parallel) ← advance angleInfo sort vertices minAngle 0 angleNum box 0;
  let bottom := ix box (indexOfBox minAngle) in
  if default false (visited !! bottom) then mret (false, box, visited)
  else
    visited ← mark angleInfo sort box 0 parallel visited;
    let nextIndex :=
      map (fun k => ix box ((indexOfBox minAngle + k) mod 4)) [0; 1; 2; 3]%nat in
    let j1 := default 0%nat (nextIndex !! 0%nat) in
    let j0 := match j1 with O => (length vertices - 1)%nat | S j => j end in
    vj1 ← at_ vertices j1;
    vj0 ← at_ vertices j0;
    let b_u0 := sub vj1 vj0 in
    _ ← set_u1 (mkVector2 (- y b_u0) (x b_u0));
    let sqr := lengthSq b_u0 in
    v1 ← at_ vertices (default 0%nat (nextIndex !! 1%nat));
    v3 ← at_ vertices (default 0%nat (nextIndex !! 3%nat));
    v2 ← at_ vertices (default 0%nat (nextIndex !! 2%nat));
    v0 ← at_ vertices (default 0%nat (nextIndex !! 0%nat));
    let diff0 := sub v1 v3 in
    let diff1 := sub v2 v0 in
    b_u1 ← get_u1;
    mret (true,
          mkBox b_u0 ModuleU1 nextIndex sqr
            ((dot b_u0 diff0 * dot b_u1 diff1) / sqr),
          visited).

(** ** rotatingCaliper *)

(** The local variables of [rotatingCaliper] that the loop updates. *)
Record Locals := mkLocals {
  minBox : Box;
  box : Box;
  angleInfo : list (option AngleInfo);
  visited : list bool
}.

(** One round of the [for] loop; [false] is a [break]. *)
Definition caliperRound (vertices : list Vector2) (l : Locals)
    : M (bool * Locals) :=
  '(found, box, angleInfo, angleNum) ←
    computeAngles vertices (box l) (angleInfo l);
  if negb found then mret (false, mkLocals (minBox l) box angleInfo (visited l))
  else
    let sort := sortAngles angleInfo angleNum in
    '(moved, box, visited) ←
      updateSupport angleInfo angleNum sort vertices (visited l) box;
    if negb moved then mret (false, mkLocals (minBox l) box angleInfo visited)
    else
      minBox ← (if area box <=? area (minBox l) then cloneDeep box
                 else mret (minBox l));
      mret (true, mkLocals minBox box angleInfo visited).

(** The [for] loop with [rounds] rounds left. *)
Fixpoint caliperLoop (rounds : nat) (vertices : list Vector2) (l : Locals)
    : M Locals :=
  match rounds with
  | O => mret l
  | S rounds =>
      '(again, l) ← caliperRound vertices l;
      if negb again then mret l else caliperLoop rounds vertices l
  end.

Definition lift {A} (o : outcome A) : M A := fun h => (h, o).

(** [hull.map((point) => new Vector2(point[0], point[1]))] *)
Definition vertices_of (hull : list (F * F)) : list Vector2 :=
  map (fun point : F * F => mkVector2 point.1 point.2) hull.

(** Lines 22 to 30: the vertices and the local variables as the loop finds
    them.  For the empty array [vertices.length - 1] is -1, and
    [smallestBox] fails on [vertices[i1]] before it reads [vertices[i0]]. *)
Definition caliperStart : M (list Vector2 * Locals) :=
  hull ← get_hull;
  let vertices := vertices_of hull in
  let visited := replicate (length vertices) false in
  minBox ← lift (smallestBox (length vertices - 1) 0 vertices);
  let visited := assign visited (ix minBox 0) true in
  box ← cloneDeep minBox;
  let angleInfo := replicate 4 None in
  mret (vertices, mkLocals minBox box angleInfo visited).

(** Lines 22 to 42: the vertices and the box of least area found. *)
Definition bestBox : M (list Vector2 * Box) :=
  '(vertices, l) ← caliperStart;
  l ← caliperLoop (length vertices) vertices l;
  mret (vertices, minBox l).

(** [Math.atan2(y, x)] is kept as the pair of its arguments. *)
Inductive Angle := atan2 (a b : F).

Record Rect := mkRect {
  width : F;
  height : F;
  center : F * F;
  angle : Angle
}.

Context `{NumberMath F}.

(** [x || 1] on numbers: the right operand when the left one is 0 or [NaN]. *)
Definition or_number (a b : F) : F :=
  if negb (a =? f0) && (a =? a) then a else b.

Definition length_ (this : Vector2) : F :=
  fsqrt (x this * x this + y this * y this).
Definition divideScalar (this : Vector2) (s : F) : Vector2 :=
  multiplyScalar this (f1 / s).
Definition normalize (this : Vector2) : Vector2 :=
  divideScalar this (or_number (length_ this) f1).

(** Lines 43 to 67. *)
Definition rectOf (vertices : list Vector2) (minBox : Box) : M Rect :=
  let normalU0 := normalize (u0 minBox) in
  mu1 ← read_ref (u1_ref minBox);
  let normalU1 := normalize mu1 in
  lastSupport ← at_ vertices (ix minBox 3);
  origin ← at_ vertices
    (if Nat.eqb (ix minBox 0) 0 then (length vertices - 1)%nat
     else (ix minBox 0 - 1)%nat);
  let maxV := multiplyScalar normalU0 (dot (sub lastSupport origin) normalU0) in
  let rectVertice := addv maxV origin in
  v1 ← at_ vertices (ix minBox 1);
  v3 ← at_ vertices (ix minBox 3);
  v2 ← at_ vertices (ix minBox 2);
  v0 ← at_ vertices (ix minBox 0);
  let diff0 := sub v1 v3 in
  let diff1 := sub v2 v0 in
  let width := fabs (dot normalU0 diff0) in
  let height := fabs (dot normalU1 diff1) in
  let angle := atan2 (y (u0 minBox)) (x (u0 minBox)) in
  let vw := multiplyScalar normalU0 (width * fhalf) in
  let vh := multiplyScalar normalU1 (height * fhalf) in
  let center := toArray (addv (addv rectVertice vw) vh) in
  mret (mkRect width height center angle).

Definition rotatingCaliper : M Rect :=
  '(vertices, minBox) ← bestBox;
  rectOf vertices minBox.

(** * Specifications *)

(** The heap when the module has just been loaded: [perpE] is
    [new Vector2(0, 0)] and [u1] is [new Vector2()]. *)
Definition module_start (hull : list (F * F)) : Heap :=
  mkHeap (mkVector2 f0 f0) (mkVector2 f0 f0) hull.

(** [returns m h Q]: from heap [h] the computation [m] raises nothing, and
    its final heap and result satisfy [Q]. *)
Definition returns {A} (m : M A) (h : Heap) (Q : Heap -> A -> Prop) : Prop :=
  match m h with
  | (h', Ok a) => Q h' a
  | (_, TypeError) => False
  end.

(** A box over [n] vertices: four indices, each of a vertex. *)
Definition box_ok (n : nat) (b : Box) : Prop :=
  length (index b) = 4%nat /\ Forall (fun i => (i < n)%nat) (index b).

(** The vector that [box.u[1]] is at the moment. *)
Definition u1_of (h : Heap) (b : Box) : Vector2 :=
  match u1_ref b with
  | Own v => v
  | ModuleU1 => u1 h
  end.

(** The area that the box's indices and axes give, by the formula of
    [updateSupport]. *)
Definition recomputed_area (vertices : list Vector2) (b : Box)
    (b_u1 : Vector2) : option F :=
  v1 ← vertices !! ix b 1;
  v3 ← vertices !! ix b 3;
  v2 ← vertices !! ix b 2;
  v0 ← vertices !! ix b 0;
  Some ((dot (u0 b) (sub v1 v3) * dot b_u1 (sub v2 v0)) / sqrLenU0 b).

(** The invariant of the caliper box: [u[1]] is [u[0]] turned by a quarter
    turn, and [area] is the area of the current indices and axes. *)
Definition box_invariant (vertices : list Vector2) (h : Heap) (b : Box) : Prop :=
  u1_of h b = mkVector2 (- y (u0 b)) (x (u0 b)) /\
  recomputed_area vertices b (u1_of h b) = Some (area b).

(** The projection of a vertex that [smallestBox] compares: its
    coordinates along [u[0]] and [u[1]], from [origin]. *)
Definition projection (b_u0 b_u1 origin vertex : Vector2) : Vector2 :=
  mkVector2 (dot b_u0 (subVectors vertex origin))
            (dot b_u1 (subVectors vertex origin)).

(** The edge of the polygon that ends at vertex [i]:
    [vertex[i] - vertex[i - 1 mod n]]. *)
Definition hull_edge (vertices : list Vector2) (i : nat) : option Vector2 :=
  vi ← vertices !! i;
  vp ← vertices !! (match i with O => (length vertices - 1)%nat | S j => j end);
  Some (sub vi vp).

(** The first [angleNum] slots of the buffer are the candidates that
    [computeAngles] has just written. *)
Definition candidate_slots (angleNum : nat) : list nat := seq 0 angleNum.

(** What [updateSupport] needs of its arguments to run: [sort] names a
    written slot in each of its first [max 1 angleNum] places, and the box
    is a box over the vertices. *)
Definition support_args_ok (angleInfo : list (option AngleInfo))
    (angleNum : nat) (sort : list nat) (vertices : list Vector2)
    (b : Box) : Prop :=
  (forall k, (k < Nat.max 1 angleNum)%nat ->
     exists i a, sort !! k = Some i /\ angleInfo !! i = Some (Some a)) /\
  box_ok (length vertices) b.

(** The candidate buffer has its four slots. *)
Definition slots_ok (angleInfo : list (option AngleInfo)) : Prop :=
  length angleInfo = 4%nat.

(** The first [angleNum] slots are written. *)
Definition candidates_written (angleInfo : list (option AngleInfo))
    (angleNum : nat) : Prop :=
  forall k, (k < angleNum)%nat -> exists a, angleInfo !! k = Some (Some a).

(** The indices during the scan of [smallestBox]: four of them, each of a
    vertex, the first one [i1]. *)
Definition scan_ok (n i1 : nat) (s : Scan) : Prop :=
  length (scan_index s) = 4%nat /\
  Forall (fun i => (i < n)%nat) (scan_index s) /\
  scan_index s !! 0%nat = Some i1.

(** The invariant of the loop: the boxes are boxes over the vertices, and
    [minBox] is a copy with axes of its own, [u[0]] along an edge of the
    polygon. *)
Definition locals_ok (vertices : list Vector2) (l : Locals) : Prop :=
  box_ok (length vertices) (minBox l) /\
  box_ok (length vertices) (box l) /\
  slots_ok (angleInfo l) /\
  (exists v, u1_ref (minBox l) = Own v) /\
  (exists i, (i < length vertices)%nat /\
     hull_edge vertices i = Some (u0 (minBox l))).

(** A computation that leaves the caller's array as it is, whatever its
    outcome. *)
Definition keeps_hull {A} (m : M A) : Prop :=
  forall h, hull (m h).1 = hull h.

(** Two heaps that hold the same array, and the same [perpE] or [u1] where
    the flag is set. *)
Definition agree (known_perpE known_u1 : bool) (h h' : Heap) : Prop :=
  hull h = hull h' /\
  (known_perpE = true -> perpE h = perpE h') /\
  (known_u1 = true -> u1 h = u1 h').

(** Whether [box.u[1]] is the module's [u1]. *)
Definition uses_module (b : Box) : bool :=
  match u1_ref b with ModuleU1 => true | Own _ => false end.

(** [same_outcome P m Q]: from two heaps related by [P], the computation
    [m] has the same outcome, and leaves heaps related by [Q]. *)
Definition same_outcome {A} (P : Heap -> Heap -> Prop) (m : M A)
    (Q : A -> Heap -> Heap -> Prop) : Prop :=
  forall h h', P h h' ->
    match m h, m h' with
    | (h1, Ok a), (h1', Ok a') => a = a' /\ Q a h1 h1'
    | (_, TypeError), (_, TypeError) => True
    | _, _ => False
    end.

(** The relation of the loop between two runs: the heaps agree on what the
    working box reads, and [minBox] has axes of its own. *)
Definition locals_agree (l : Locals) (h h' : Heap) : Prop :=
  agree false (uses_module (box l)) h h' /\ uses_module (minBox l) = false.

(** Twice the signed area of the triangle [o], [a], [b]. *)
Definition cross (o a b : F * F) : F :=
  (a.1 - o.1) * (b.2 - o.2) - (a.2 - o.2) * (b.1 - o.1).

Definition point_at (hull : list (F * F)) (i : nat) : F * F :=
  default (f0, f0) (hull !! i).

(** The precondition of [rotatingCaliper]: at least three vertices, in
    counter-clockwise order, strictly convex: every vertex lies strictly to
    the left of every edge it is not an end of. *)
Definition valid_hull (hull : list (F * F)) : bool :=
  let n := length hull in
  Nat.leb 3 n &&
  forallb (fun i =>
    let i' := if Nat.eqb (i + 1) n then 0%nat else (i + 1)%nat in
    forallb (fun j =>
      Nat.eqb j i || Nat.eqb j i' ||
      (f0 <? cross (point_at hull i) (point_at hull i') (point_at hull j)))
      (seq 0 n))
    (seq 0 n).

(** The unit vector at the angle [Math.atan2(b, a)]. *)
Definition direction (t : Angle) : Vector2 :=
  match t with
  | atan2 b a =>
      if (a =? f0) && (b =? f0) then mkVector2 f1 f0
      else normalize (mkVector2 a b)
  end.

(** Whether point [p] lies in the rectangle [r], up to [tol] on each
    side. *)
Definition contains (r : Rect) (tol : F) (p : F * F) : bool :=
  let dir := direction (angle r) in
  let d := mkVector2 (p.1 - (center r).1) (p.2 - (center r).2) in
  (fabs (dot d dir) <=? width r * fhalf + tol) &&
  (fabs (dot d (mkVector2 (- y dir) (x dir))) <=? height r * fhalf + tol).

(** ** The supports of [smallestBox] *)

(** The three tests of the [forEach] callback of [smallestBox]. *)
Definition exceeds1 (v s : Vector2) : bool :=
  (x v >? x s) || ((x v =? x s) && (y v >? y s)).
Definition exceeds2 (v s : Vector2) : bool :=
  (y v >? y s) || ((y v =? y s) && (x v <? x s)).
Definition exceeds3 (v s : Vector2) : bool :=
  (x v <? x s) || ((x v =? x s) && (y v <? y s)).

(** [s] is what [support[k]] holds when [index[k]] is [k]: the projection
    of vertex [k], or the vector the scan starts with when no vertex has
    exceeded it, and then [k] is still [i1]. *)
Definition support_of (vertices : list Vector2)
    (proj : Vector2 -> Vector2) (i1 : nat) (init : Vector2)
    (k : nat) (s : Vector2) : Prop :=
  (exists v, vertices !! k = Some v /\ s = proj v) \/ (k = i1 /\ s = init).

(** The invariant of the scan of [smallestBox]: the three supports are
    those of the indices, and the projection of no vertex seen so far
    exceeds them. *)
Definition scan_inv (vertices : list Vector2)
    (b_u0 b_u1 origin : Vector2) (i1 : nat) (seen : nat -> Prop)
    (s : Scan) : Prop :=
  exists k1 k2 k3 s0 s1 s2 s3,
    scan_index s = [i1; k1; k2; k3] /\
    support s = [s0; s1; s2; s3] /\
    support_of vertices (projection b_u0 b_u1 origin) i1
      (mkVector2 (- f0) (- f0)) k1 s1 /\
    support_of vertices (projection b_u0 b_u1 origin) i1
      (mkVector2 (- f0) (- f0)) k2 s2 /\
    support_of vertices (projection b_u0 b_u1 origin) i1
      (mkVector2 f0 f0) k3 s3 /\
    forall j v, seen j -> vertices !! j = Some v ->
      exceeds1 (projection b_u0 b_u1 origin v) s1 = false /\
      exceeds2 (projection b_u0 b_u1 origin v) s2 = false /\
      exceeds3 (projection b_u0 b_u1 origin v) s3 = false.

(** The components of [p] and [q] compare equal. *)
Definition same_place (p q : Vector2) : Prop :=
  feq (x p) (x q) = true /\ feq (y p) (y q) = true.

(** ** What a round computes *)

(** The sides of the box that [computeAngles] makes a candidate of, in the
    order in which its loop visits them: side [k0] when [index[k0]] differs
    from [index[k1]], with [k1 = (k0 + 1) % 4]. *)
Definition active_sides (b : Box) : list nat :=
  filter (fun k0 => ix b k0 ≠ ix b ((k0 + 1) mod 4)) [3; 0; 1; 2]%nat.

(** The edge of the polygon that leaves vertex [j]:
    [vertex[j + 1 mod n] - vertex[j]]. *)
Definition edge_from (vertices : list Vector2) (j : nat) : option Vector2 :=
  v1 ← vertices !! (if Nat.eqb (j + 1) (length vertices) then 0 else j + 1)%nat;
  v0 ← vertices !! j;
  Some (sub v1 v0).

(** The squared sine of the angle between the edge [e] and the direction
    [d], by the formula of [computeAngles]:
    [(perp(e) . d)^2 / (|e|^2 |d|^2)]. *)
Definition sinThetaSqr_of (e d : Vector2) : F :=
  let p := mkVector2 (- y e) (x e) in
  (dot p d * dot p d) / (dot e e * dot d d).

(** The direction [d] that [computeAngles] takes for side [k0], from the
    axes [a0] and [a1] that the box has when it is called: the sides are
    visited in the order 3, 0, 1, 2; side 3 negates [u[1]] in place, which
    side 1 then reads, and side 2 negates [u[0]], after side 0 has read
    it. *)
Definition side_direction (b : Box) (a0 a1 : Vector2) (k0 : nat) : Vector2 :=
  match k0 with
  | 0 => a0
  | 1 => if decide (ix b 3 ≠ ix b 0) then negate a1 else a1
  | 2 => negate a0
  | _ => negate a1
  end.

(** Whether the candidate [sort[k]] is at the angle of [minAngle] and on
    side [side]: the test of the first loop of [updateSupport], for one
    side. *)
Definition tied_on (angleInfo : list (option AngleInfo)) (sort : list nat)
    (minAngle : AngleInfo) (side k : nat) : bool :=
  match sort !! k with
  | Some i =>
      match angleInfo !! i with
      | Some (Some a) =>
          (sinThetaSqr a =? sinThetaSqr minAngle)
          && Nat.eqb (indexOfBox a) side
      | _ => false
      end
  | None => false
  end.

(** The number of such candidates among [sort[k]], ...,
    [sort[k + rounds - 1]]. *)
Fixpoint ties (angleInfo : list (option AngleInfo)) (sort : list nat)
    (minAngle : AngleInfo) (side k rounds : nat) : nat :=
  match rounds with
  | O => 0
  | S rounds =>
      (if tied_on angleInfo sort minAngle side k then 1 else 0)
      + ties angleInfo sort minAngle side (S k) rounds
  end.

End Program.

Arguments Vector2 F : clear implicits.
Arguments VecRef F : clear implicits.
Arguments Box F : clear implicits.
Arguments AngleInfo F : clear implicits.
Arguments Heap F : clear implicits.
Arguments M F A : clear implicits.
Arguments Scan F : clear implicits.
Arguments Locals F : clear implicits.
Arguments Angle F : clear implicits.
Arguments Rect F : clear implicits.

(** ** Angles as real numbers *)

(** The value of a finite binary64 number. *)
Definition float_to_Q (f : float) : Q :=
  match Prim2SF f with
  | SpecFloat.S754_finite s m e =>
      Qred (((if s then Z.neg m else Z.pos m) # 1) * Qpower (2 # 1) e)
  | _ => 0%Q
  end.

(** The angle of the point [(a, b)], in the range from [-PI] to [PI]:
    what [Math.atan2(b, a)] approximates. *)
Definition atan2R (b a : R) : R :=
  if Rlt_dec 0 a then atan (b / a)
  else if Rlt_dec a 0 then
    (if Rle_dec 0 b then atan (b / a) + PI else atan (b / a) - PI)%R
  else if Rlt_dec 0 b then (PI / 2)%R
  else if Rlt_dec b 0 then (- PI / 2)%R
  else 0%R.

Definition angle_value (t : Angle float) : R :=
  match t with
  | atan2 b a => atan2R (Q2R (float_to_Q b)) (Q2R (float_to_Q a))
  end.

(** ** The order of binary64 numbers *)

(** The place of a binary64 value in the order of the comparisons: none
    for NaN, one for the two zeros, and for the others the sign, then the
    exponent, then the mantissa. *)
Definition float_key (f : spec_float) : option (Z * Z * Z) :=
  match f with
  | S754_nan => None
  | S754_zero _ => Some (0, 0, 0)%Z
  | S754_infinity s => Some (if s then (-2) else 2, 0, 0)%Z
  | S754_finite s m e =>
      Some (if s then (-1, - e, Z.neg m) else (1, e, Z.pos m))%Z
  end.

(** The order of the places. *)
Definition key_lt (a b : Z * Z * Z) : Prop :=
  (a.1.1 < b.1.1 \/
   a.1.1 = b.1.1 /\ (a.1.2 < b.1.2 \/ a.1.2 = b.1.2 /\ a.2 < b.2))%Z.

(** Whether a binary64 value is a zero, is NaN, is a number that is not
    infinite. *)
Definition sf_zero (f : spec_float) : bool :=
  match f with S754_zero _ => true | _ => false end.
Definition sf_nan (f : spec_float) : bool :=
  match f with S754_nan => true | _ => false end.
Definition sf_finite (f : spec_float) : bool :=
  match f with S754_zero _ | S754_finite _ _ _ => true | _ => false end.

(** A zero or NaN: what [a - a] is. *)
Definition sf_null (f : spec_float) : Prop :=
  sf_zero f = true \/ sf_nan f = true.

(** ** Inputs *)

Definition square : list (float * float) :=
  [(0, 0); (2, 0); (2, 2); (0, 2)]%float.

Definition right_triangle : list (float * float) :=
  [(0, 0); (4, 0); (0, 3)]%float.

Definition slanted_triangle : list (float * float) :=
  [(0, 0); (1, 0); (2, 2)]%float.

Definition single_point : list (float * float) := [(5, 7)]%float.

Definition two_points : list (float * float) := [(0, 0); (1, 0)]%float.

(** The arguments of the first call of [updateSupport] on the square: the
    four candidates, all of them with the squared sine 1, and the box as
    [computeAngles] leaves it. *)
Definition square_angleInfo : list (option (AngleInfo float)) :=
  [Some (mkAngleInfo 1%float 3); Some (mkAngleInfo 1%float 0);
   Some (mkAngleInfo 1%float 1); Some (mkAngleInfo 1%float 2)].

Definition square_box : Box float :=
  mkBox (mkVector2 0 2)%float (Own (mkVector2 (-2) 0)%float) [0; 1; 2; 3]%nat
    4%float 4%float.

(** A heap in which earlier calls have left other vectors. *)
Definition used_module (hull : list (float * float)) : Heap float :=
  mkHeap (mkVector2 7 (-3))%float (mkVector2 (-1) 9)%float hull.

(** The locals after [k] rounds of the loop on [hull], from a module that
    has just been loaded. *)
Definition after_rounds {F} `{Number F} (k : nat) (hull : list (F * F))
    : Heap F * outcome (list (Vector2 F) * Locals F) :=
  ('(vertices, l) ← caliperStart;
   l ← caliperLoop k vertices l;
   mret (vertices, l)) (module_start hull).

(** The arguments of the first call of [updateSupport] on the right
    triangle, in binary64. *)
Definition right_triangle_angleInfo : list (option (AngleInfo float)) :=
  [Some (mkAngleInfo 1%float 3); Some (mkAngleInfo 1%float 0);
   Some (mkAngleInfo (144 / 225)%float 2); None].

Definition right_triangle_box : Box float :=
  mkBox (mkVector2 (-0) 3)%float (Own (mkVector2 (-3) (-0))%float)
    [0; 1; 1; 2]%nat 9%float 12%float.

(** A triangle, counter-clockwise, whose coordinates are integers that a
    binary64 number holds exactly, and large enough for the products in
    [smallestBox] to be rounded. *)
Definition wide_triangle : list (float * float) :=
  [(15376383, 17683484); (16747957, 6391294); (94351344, 79648552)]%float.

(** * Proofs *)

(** ** Running the program: it returns, and what it leaves *)

Section Generic.
Context {F : Type} {num : Number F} {math : NumberMath F}.
Implicit Types (h : Heap F) (b : Box F) (vertices : list (Vector2 F)).
Implicit Types (P : Heap F -> Heap F -> Prop).

Lemma bind_run {A B} (m : M F A) (f : A -> M F B) (h : Heap F) :
  (m ≫= f) h =
  match m h with
  | (h', Ok a) => f a h'
  | (h', TypeError) => (h', TypeError)
  end.
Proof. reflexivity. Qed.

Lemma returns_ret {A} (a : A) h (Q : Heap F -> A -> Prop) :
  Q h a -> returns (mret a) h Q.
Proof. intros HQ. exact HQ. Qed.

Lemma returns_bind {A B} (m : M F A) (f : A -> M F B) h
    (Q : Heap F -> B -> Prop) :
  returns m h (fun h' a => returns (f a) h' Q) -> returns (m ≫= f) h Q.
Proof.
  unfold returns. rewrite bind_run.
  destruct (m h) as [h' [a|]]; [trivial | intros []].
Qed.

Lemma returns_mono {A} (m : M F A) h (P Q : Heap F -> A -> Prop) :
  returns m h P -> (forall h' a, P h' a -> Q h' a) -> returns m h Q.
Proof.
  unfold returns. destruct (m h) as [h' [a|]]; [auto | intros []].
Qed.

Lemma returns_run {A} (m : M F A) h (Q : Heap F -> A -> Prop) :
  returns m h Q <-> exists h' a, m h = (h', Ok a) /\ Q h' a.
Proof.
  unfold returns. destruct (m h) as [h' [a|]]; split.
  - intros HQ. eauto.
  - intros (h1 & a1 & E & HQ). congruence.
  - intros [].
  - intros (h1 & a1 & E & HQ). discriminate.
Qed.

Lemma returns_at {A} (a : list A) i v h (Q : Heap F -> A -> Prop) :
  a !! i = Some v -> Q h v -> returns (at_ a i) h Q.
Proof. intros E HQ. unfold at_. rewrite E. exact HQ. Qed.

Lemma returns_get_u1 h (Q : Heap F -> Vector2 F -> Prop) :
  Q h (u1 h) -> returns get_u1 h Q.
Proof. intros HQ. exact HQ. Qed.

Lemma returns_get_perpE h (Q : Heap F -> Vector2 F -> Prop) :
  Q h (perpE h) -> returns get_perpE h Q.
Proof. intros HQ. exact HQ. Qed.

Lemma returns_get_hull h (Q : Heap F -> list (F * F) -> Prop) :
  Q h (hull h) -> returns get_hull h Q.
Proof. intros HQ. exact HQ. Qed.

Lemma ix_lt n b k : box_ok n b -> (0 < n)%nat -> (ix b k < n)%nat.
Proof.
  intros [_ Hall] Hn. unfold ix.
  destruct (index b !! k) as [i|] eqn:E; simpl; [|assumption].
  eapply Forall_lookup_1 in Hall; eauto.
Qed.

Lemma vertex_exists vertices i :
  (i < length vertices)%nat -> exists v, vertices !! i = Some v.
Proof. intros Hi. apply lookup_lt_is_Some_2 in Hi. destruct Hi; eauto. Qed.

(** [box.u[k]] and [box.u[k].negate()] leave the indices alone. *)
Lemma box_u_negate_returns b k h :
  returns (box_u_negate b k) h
    (fun h' r => index r.2 = index b /\ hull h' = hull h /\
       ((exists v, u1_ref b = Own v) -> exists v, u1_ref r.2 = Own v /\ h' = h)).
Proof.
  unfold box_u_negate. destruct k as [|k].
  - apply returns_ret. simpl. repeat split. intros [v Hv]. eauto.
  - destruct (u1_ref b) as [v|] eqn:E.
    + apply returns_ret. simpl. repeat split. eauto.
    + apply returns_bind, returns_get_u1, returns_bind. simpl.
      apply returns_ret. simpl. rewrite E. repeat split.
      intros [v Hv]. discriminate.
Qed.

Lemma box_u_returns b k h :
  returns (box_u b k) h (fun h' _ => h' = h).
Proof.
  unfold box_u, read_ref. destruct k as [|k].
  - apply returns_ret. reflexivity.
  - destruct (u1_ref b).
    + apply returns_ret. reflexivity.
    + apply returns_get_u1. reflexivity.
Qed.

Lemma slots_ok_insert angleInfo k (a : AngleInfo F) :
  slots_ok angleInfo -> slots_ok (<[k := Some a]> angleInfo).
Proof. unfold slots_ok. rewrite length_insert. trivial. Qed.

Lemma candidates_written_insert angleInfo angleNum (a : AngleInfo F) :
  (angleNum < length angleInfo)%nat ->
  candidates_written angleInfo angleNum ->
  candidates_written (<[angleNum := Some a]> angleInfo) (S angleNum).
Proof.
  intros Hlen Hw k Hk. destruct (decide (angleNum = k)) as [->|Hne].
  - exists a. apply list_lookup_insert_eq. assumption.
  - rewrite list_lookup_insert_ne by assumption. apply Hw. lia.
Qed.

(** One round of [computeAngles] on a box over the vertices. *)
Lemma angle_side_returns vertices b angleInfo angleNum k0 k1 h :
  box_ok (length vertices) b -> (0 < length vertices)%nat ->
  slots_ok angleInfo -> candidates_written angleInfo angleNum ->
  (angleNum < 4)%nat ->
  returns (angle_side vertices (b, angleInfo, angleNum) k0 k1) h
    (fun h' r =>
       let '(b', angleInfo', angleNum') := r in
       index b' = index b /\ slots_ok angleInfo' /\
       candidates_written angleInfo' angleNum' /\
       (angleNum' <= S angleNum)%nat /\
       ((exists v, u1_ref b = Own v) -> exists v, u1_ref b' = Own v)).
Proof.
  intros Hb Hn Hs Hw Hnum. unfold angle_side.
  destruct (bool_decide (ix b k0 ≠ ix b k1)).
  2:{ apply returns_ret. simpl.
      split; [reflexivity|]. split; [assumption|]. split; [assumption|].
      split; [lia|]. trivial. }
  apply returns_bind.
  assert (Hd : returns
    (if negb (Nat.eqb (Nat.land k0 2) 0) then box_u_negate b (Nat.land k0 1)
     else box_u b (Nat.land k0 1) ≫= (fun d => mret (d, b))) h
    (fun h' r => index r.2 = index b /\
        ((exists v, u1_ref b = Own v) -> exists v, u1_ref r.2 = Own v))).
  { destruct (negb _).
    - eapply returns_mono; [apply box_u_negate_returns|].
      intros h' r (? & ? & Hown). split; [assumption|].
      intros Hv. destruct (Hown Hv) as (v & ? & ?). eauto.
    - apply returns_bind. eapply returns_mono; [apply box_u_returns|].
      intros h' d _. apply returns_ret. simpl. auto. }
  eapply returns_mono; [exact Hd|]. clear Hd.
  intros h1 [d b'] [Hidx Hown]. simpl in Hidx, Hown.
  assert (Hb' : box_ok (length vertices) b').
  { unfold box_ok. rewrite Hidx. exact Hb. }
  pose proof (ix_lt _ _ k0 Hb' Hn) as Hj0.
  set (j0 := ix b' k0) in *.
  set (j1 := if Nat.eqb (j0 + 1) (length vertices) then 0%nat else (j0 + 1)%nat).
  assert (Hj1 : (j1 < length vertices)%nat).
  { unfold j1. destruct (Nat.eqb_spec (j0 + 1) (length vertices)); lia. }
  destruct (vertex_exists _ _ Hj1) as [vj1 E1].
  destruct (vertex_exists _ _ Hj0) as [vj0 E0].
  apply returns_bind. eapply returns_at; [exact E1|].
  apply returns_bind. eapply returns_at; [exact E0|].
  apply returns_bind. simpl. apply returns_bind, returns_get_perpE, returns_ret.
  split; [assumption|].
  split; [apply slots_ok_insert; assumption|].
  split; [apply candidates_written_insert; [unfold slots_ok in Hs; lia | assumption]|].
  split; [lia | assumption].
Qed.

Lemma computeAngles_returns vertices b angleInfo h :
  box_ok (length vertices) b -> (0 < length vertices)%nat ->
  slots_ok angleInfo ->
  returns (computeAngles vertices b angleInfo) h
    (fun h' r =>
       let '(found, b', angleInfo', angleNum) := r in
       index b' = index b /\ slots_ok angleInfo' /\
       candidates_written angleInfo' angleNum /\
       (angleNum <= 4)%nat /\ found = Nat.ltb 0 angleNum /\
       ((exists v, u1_ref b = Own v) -> exists v, u1_ref b' = Own v)).
Proof.
  intros Hb Hn Hs. unfold computeAngles.
  assert (Hw0 : candidates_written angleInfo 0) by (intros k Hk; lia).
  assert (Hok : forall b', index b' = index b -> box_ok (length vertices) b').
  { intros b' E. unfold box_ok. rewrite E. exact Hb. }
  apply returns_bind. eapply returns_mono;
    [apply angle_side_returns; first [assumption | lia | apply Hok; congruence]|].
  intros h1 [[b1 a1] n1] (E1 & Hs1 & Hw1 & Hn1 & Ho1).
  apply returns_bind. eapply returns_mono;
    [apply angle_side_returns; first [assumption | lia | apply Hok; congruence]|].
  intros h2 [[b2 a2] n2] (E2 & Hs2 & Hw2 & Hn2 & Ho2).
  apply returns_bind. eapply returns_mono;
    [apply angle_side_returns; first [assumption | lia | apply Hok; congruence]|].
  intros h3 [[b3 a3] n3] (E3 & Hs3 & Hw3 & Hn3 & Ho3).
  apply returns_bind. eapply returns_mono;
    [apply angle_side_returns; first [assumption | lia | apply Hok; congruence]|].
  intros h4 [[b4 a4] n4] (E4 & Hs4 & Hw4 & Hn4 & Ho4).
  apply returns_ret.
  split; [congruence|]. split; [assumption|]. split; [assumption|].
  split; [lia|]. split; [reflexivity|]. auto.
Qed.

(** *** The sort *)

Lemma insert_sorted_perm cmp a l : insert_sorted cmp a l ≡ₚ a :: l.
Proof.
  induction l as [|b l IH]; simpl; [reflexivity|].
  destruct (cmp a b); try reflexivity.
  rewrite IH. apply Permutation_swap.
Qed.

Lemma js_sort_perm cmp l : js_sort cmp l ≡ₚ l.
Proof.
  induction l as [|a l IH]; simpl; [reflexivity|].
  rewrite insert_sorted_perm, IH. reflexivity.
Qed.

(** [sort] with a comparison function that is a total preorder on the
    elements of the array returns them in that order. *)
Lemma insert_sorted_ordered cmp (D : nat -> Prop) :
  (forall a b : nat, D a -> D b -> cmp a b = Gt -> cmp b a <> Gt) ->
  (forall a b c : nat, D a -> D b -> D c ->
     cmp a b <> Gt -> cmp b c <> Gt -> cmp a c <> Gt) ->
  forall (a : nat) l, D a -> Forall D l ->
    StronglySorted (fun a b : nat => cmp a b <> Gt) l ->
    StronglySorted (fun a b : nat => cmp a b <> Gt) (insert_sorted cmp a l).
Proof.
  intros Htotal Htrans a l Da. induction l as [|c l IH]; intros Dl Hs; simpl.
  - repeat constructor.
  - apply Forall_cons in Dl as [Dc Dl].
    apply StronglySorted_inv in Hs as [Hs Hc].
    destruct (cmp a c) eqn:E.
    + constructor; [constructor; assumption|].
      constructor; [rewrite E; discriminate|].
      eapply Forall_impl; [apply Forall_and; split; [exact Dl | exact Hc]|].
      intros d [Dd Hd]. simpl in Hd.
      apply (Htrans a c d); [assumption.. | rewrite E; discriminate | exact Hd].
    + constructor; [constructor; assumption|].
      constructor; [rewrite E; discriminate|].
      eapply Forall_impl; [apply Forall_and; split; [exact Dl | exact Hc]|].
      intros d [Dd Hd]. simpl in Hd.
      apply (Htrans a c d); [assumption.. | rewrite E; discriminate | exact Hd].
    + constructor; [apply IH; assumption|].
      rewrite insert_sorted_perm. constructor; [|assumption].
      apply Htotal; assumption.
Qed.

Lemma js_sort_ordered cmp (D : nat -> Prop) :
  (forall a b : nat, D a -> D b -> cmp a b = Gt -> cmp b a <> Gt) ->
  (forall a b c : nat, D a -> D b -> D c ->
     cmp a b <> Gt -> cmp b c <> Gt -> cmp a c <> Gt) ->
  forall l, Forall D l ->
    StronglySorted (fun a b : nat => cmp a b <> Gt) (js_sort cmp l).
Proof.
  intros Htotal Htrans l. induction l as [|a l IH]; intros Dl; simpl.
  - constructor.
  - apply Forall_cons in Dl as [Da Dl].
    apply (insert_sorted_ordered cmp D); auto.
    rewrite js_sort_perm. assumption.
Qed.

Lemma StronglySorted_weaken (R R' : nat -> nat -> Prop) l :
  (forall a b : nat, R a b -> R' a b) -> StronglySorted R l -> StronglySorted R' l.
Proof.
  intros HR. induction 1 as [|a l Hs IH Ha]; constructor; [assumption|].
  eapply Forall_impl; [exact Ha|]. intros c. apply HR.
Qed.
Lemma elem_of_filled_from (angleInfo : list (option (AngleInfo F))) j i :
  i ∈ filled_from j angleInfo <->
  (j <= i)%nat /\ exists a, angleInfo !! (i - j)%nat = Some (Some a).
Proof.
  revert j. induction angleInfo as [|o rest IH]; intros j; simpl.
  - split; [intros Hin; inversion Hin | intros (_ & a & E); discriminate].
  - assert (Hrest : i ∈ filled_from (S j) rest <->
              (j < i)%nat /\ exists a, (o :: rest) !! (i - j)%nat = Some (Some a)).
    { rewrite IH. split.
      - intros (Hle & a & E). split; [lia|]. exists a.
        replace (i - j)%nat with (S (i - S j)) by lia. exact E.
      - intros (Hlt & a & E). split; [lia|]. exists a.
        replace (i - j)%nat with (S (i - S j)) in E by lia. exact E. }
    destruct o as [a0|].
    + rewrite elem_of_cons, Hrest. split.
      * intros [->|(Hlt & a & E)].
        -- split; [lia|]. exists a0. replace (j - j)%nat with 0%nat by lia.
           reflexivity.
        -- split; [lia|]. eauto.
      * intros (Hle & a & E). destruct (decide (i = j)) as [->|Hne]; [by left|].
        right. split; [lia|]. eauto.
    + rewrite Hrest. split.
      * intros (Hlt & a & E). split; [lia|]. eauto.
      * intros (Hle & a & E). destruct (decide (i = j)) as [->|Hne].
        -- replace (j - j)%nat with 0%nat in E by lia. discriminate.
        -- split; [lia|]. eauto.
Qed.

Lemma elem_of_filled (angleInfo : list (option (AngleInfo F))) i :
  i ∈ filled_from 0 angleInfo <-> exists a, angleInfo !! i = Some (Some a).
Proof.
  rewrite elem_of_filled_from. replace (i - 0)%nat with i by lia.
  split; [intros [_ ?]; assumption | intros ?; split; [lia | assumption]].
Qed.

Lemma candidates_written_length (angleInfo : list (option (AngleInfo F))) n :
  candidates_written angleInfo n -> (n <= length (filled_from 0 angleInfo))%nat.
Proof.
  intros Hw. assert (E : length (seq 0 n) = n) by apply length_seq.
  rewrite <- E at 1. apply submseteq_length.
  apply NoDup_submseteq; [apply NoDup_seq|].
  intros k Hk. apply elem_of_seq in Hk. apply elem_of_filled, Hw. lia.
Qed.

(** Every place of [sort] that [updateSupport] reads names a written
    slot. *)
Lemma sortAngles_written (angleInfo : list (option (AngleInfo F))) angleNum :
  (0 < angleNum)%nat -> candidates_written angleInfo angleNum ->
  forall k, (k < angleNum)%nat ->
    exists i a, sortAngles angleInfo angleNum !! k = Some i /\
                angleInfo !! i = Some (Some a).
Proof.
  intros Hpos Hw k Hk. unfold sortAngles.
  destruct (Nat.eqb_spec angleNum 0) as [->|_]; [lia|].
  set (cmp := compareAngles angleInfo angleNum).
  pose proof (js_sort_perm cmp (filled_from 0 angleInfo)) as Hp.
  pose proof (candidates_written_length _ _ Hw) as Hlen.
  rewrite <- (Permutation_length Hp) in Hlen.
  destruct (lookup_lt_is_Some_2 (js_sort cmp (filled_from 0 angleInfo)) k)
    as [i Ei]; [lia|].
  exists i. assert (Hin : i ∈ filled_from 0 angleInfo).
  { rewrite <- Hp. eapply list_elem_of_lookup_2. exact Ei. }
  apply elem_of_filled in Hin. destruct Hin as [a Ea]. eauto.
Qed.

(** *** updateSupport *)

Lemma box_ok_set_index n b i v :
  box_ok n b -> (v < n)%nat -> box_ok n (set_index b i v).
Proof.
  intros [Hlen Hall] Hv. split; simpl.
  - rewrite length_insert. assumption.
  - apply Forall_insert; assumption.
Qed.

Lemma ix_set_index b i v :
  (i < length (index b))%nat -> ix (set_index b i v) i = v.
Proof.
  intros Hi. unfold ix, set_index. simpl.
  rewrite list_lookup_insert_eq by assumption. reflexivity.
Qed.

(** The index of a side after it has moved to the next vertex. *)
Lemma box_ok_advanced n b i :
  box_ok n b -> (0 < n)%nat ->
  box_ok n
    (let box := set_index b i (ix b i + 1) in
     if Nat.eqb (ix box i) n then set_index box i 0 else box).
Proof.
  intros Hb Hn. pose proof (ix_lt n b i Hb Hn) as Hlt. cbv zeta.
  destruct (decide (i < length (index b))%nat) as [Hi|Hi].
  - rewrite ix_set_index by assumption.
    destruct (Nat.eqb_spec (ix b i + 1) n) as [E|E].
    + destruct Hb as [Hlen Hall]. split; simpl.
      * rewrite !length_insert. assumption.
      * rewrite list_insert_insert_eq. apply Forall_insert; assumption.
    + apply box_ok_set_index; [assumption | lia].
  - assert (E : set_index b i (ix b i + 1) = b).
    { unfold set_index. rewrite list_insert_ge by lia. destruct b; reflexivity. }
    rewrite E. destruct (Nat.eqb_spec (ix b i) n) as [E'|E']; [lia|assumption].
Qed.

Lemma angle_at_run angleInfo sort k i (a : AngleInfo F) h :
  sort !! k = Some i -> angleInfo !! i = Some (Some a) ->
  angle_at angleInfo sort k h = (h, Ok a).
Proof. intros E1 E2. unfold angle_at. rewrite E1, E2. reflexivity. Qed.

Lemma advance_run angleInfo sort vertices minAngle rounds :
  forall k b parallel h,
    (forall j, (k <= j < k + rounds)%nat ->
       exists i a, sort !! j = Some i /\ angleInfo !! i = Some (Some a)) ->
    box_ok (length vertices) b -> (0 < length vertices)%nat ->
    exists b1 parallel1,
      advance angleInfo sort vertices minAngle k rounds b parallel h
        = (h, Ok (b1, parallel1)) /\
      box_ok (length vertices) b1 /\
      u0 b1 = u0 b /\ u1_ref b1 = u1_ref b /\
      sqrLenU0 b1 = sqrLenU0 b /\ area b1 = area b /\
      (parallel1 <= parallel + rounds)%nat.
Proof.
  induction rounds as [|rounds IH]; intros k b parallel h Hsort Hb Hn.
  - exists b, parallel. simpl. split; [reflexivity|]. split; [assumption|].
    repeat (split; [reflexivity|]). lia.
  - destruct (Hsort k) as (i & a & Ei & Ea); [lia|].
    simpl. rewrite bind_run, (angle_at_run _ _ _ _ _ _ Ei Ea).
    destruct (feq (sinThetaSqr a) (sinThetaSqr minAngle)).
    + pose proof (box_ok_advanced _ b (indexOfBox a) Hb Hn) as Hb'.
      cbv zeta in Hb'.
      edestruct (IH (S k)) as (b1 & p1 & E & Hb1 & Hu0 & Hu1 & Hs & Ha & Hp);
        [| exact Hb' | exact Hn |].
      { intros j Hj. apply Hsort. lia. }
      exists b1, p1. split; [exact E|].
      split; [assumption|].
      destruct (Nat.eqb _ _); simpl in *;
        (repeat (split; [congruence|]); lia).
    + edestruct (IH (S k)) as (b1 & p1 & E & Hb1 & Hu0 & Hu1 & Hs & Ha & Hp);
        [| exact Hb | exact Hn |].
      { intros j Hj. apply Hsort. lia. }
      exists b1, p1. split; [exact E|].
      repeat (split; [assumption|]). lia.
Qed.

Lemma mark_run angleInfo sort (b : Box F) rounds :
  forall k visited h,
    (forall j, (k <= j < k + rounds)%nat ->
       exists i a, sort !! j = Some i /\ angleInfo !! i = Some (Some a)) ->
    exists visited', mark angleInfo sort b k rounds visited h = (h, Ok visited').
Proof.
  induction rounds as [|rounds IH]; intros k visited h Hsort.
  - exists visited. reflexivity.
  - destruct (Hsort k) as (i & a & Ei & Ea); [lia|].
    simpl. rewrite bind_run, (angle_at_run _ _ _ _ _ _ Ei Ea).
    apply IH. intros j Hj. apply Hsort. lia.
Qed.

Lemma at_run {A} (a : list A) i v h :
  a !! i = Some v -> at_ a i h = (h, Ok v).
Proof. intros E. unfold at_. rewrite E. reflexivity. Qed.

Lemma updateSupport_run angleInfo angleNum sort vertices visited b h :
  support_args_ok angleInfo angleNum sort vertices b ->
  (0 < length vertices)%nat ->
  exists minAngle b1 parallel,
    angle_at angleInfo sort 0 h = (h, Ok minAngle) /\
    advance angleInfo sort vertices minAngle 0 angleNum b 0 h
      = (h, Ok (b1, parallel)) /\
    box_ok (length vertices) b1 /\
    u0 b1 = u0 b /\ u1_ref b1 = u1_ref b /\
    sqrLenU0 b1 = sqrLenU0 b /\ area b1 = area b /\
    if default false (visited !! ix b1 (indexOfBox minAngle)) then
      updateSupport angleInfo angleNum sort vertices visited b h
        = (h, Ok (false, b1, visited))
    else
      exists b' visited',
        updateSupport angleInfo angleNum sort vertices visited b h
          = (mkHeap (perpE h) (mkVector2 (fneg (y (u0 b'))) (x (u0 b'))) (hull h),
             Ok (true, b', visited')) /\
        box_ok (length vertices) b' /\ u1_ref b' = ModuleU1 /\
        index b' = map (fun k => ix b1 ((indexOfBox minAngle + k) mod 4))
                     [0; 1; 2; 3]%nat /\
        hull_edge vertices (ix b' 0) = Some (u0 b') /\
        sqrLenU0 b' = lengthSq (u0 b') /\
        recomputed_area vertices b'
          (mkVector2 (fneg (y (u0 b'))) (x (u0 b'))) = Some (area b').
Proof.
  intros [Hsort Hb] Hn.
  destruct (Hsort 0%nat) as (i0 & minAngle & Ei & Ea); [lia|].
  pose proof (angle_at_run _ _ _ _ _ h Ei Ea) as Emin.
  destruct (advance_run angleInfo sort vertices minAngle angleNum 0 b 0 h)
    as (b1 & parallel & Eadv & Hb1 & Hu0 & Hu1 & Hsq & Har & Hpar);
    [intros j Hj; apply Hsort; lia | assumption | assumption |].
  exists minAngle, b1, parallel.
  do 7 (split; [assumption|]).
  unfold updateSupport. rewrite bind_run, Emin, bind_run, Eadv.
  destruct (default false (visited !! ix b1 (indexOfBox minAngle))) eqn:Ev;
    [reflexivity|].
  destruct (mark_run angleInfo sort b1 parallel 0 visited h) as [visited' Em].
  { intros j Hj. apply Hsort. lia. }
  rewrite bind_run, Em.
  set (side := indexOfBox minAngle).
  set (nextIndex := map (fun k => ix b1 ((side + k) mod 4)) [0; 1; 2; 3]%nat).
  assert (Hlt : forall k, (ix b1 k < length vertices)%nat)
    by (intros k; apply ix_lt; assumption).
  set (j1 := default 0%nat (nextIndex !! 0%nat)).
  assert (Hj1 : (j1 < length vertices)%nat) by apply Hlt.
  set (j0 := match j1 with O => (length vertices - 1)%nat | S j => j end).
  assert (Hj0 : (j0 < length vertices)%nat) by (unfold j0; destruct j1; lia).
  destruct (vertex_exists _ _ Hj1) as [vj1 E1].
  destruct (vertex_exists _ _ Hj0) as [vj0 E0].
  destruct (vertex_exists vertices (default 0%nat (nextIndex !! 1%nat)))
    as [v1 Ev1]; [apply Hlt|].
  destruct (vertex_exists vertices (default 0%nat (nextIndex !! 3%nat)))
    as [v3 Ev3]; [apply Hlt|].
  destruct (vertex_exists vertices (default 0%nat (nextIndex !! 2%nat)))
    as [v2 Ev2]; [apply Hlt|].
  rewrite bind_run, (at_run _ _ _ _ E1), bind_run, (at_run _ _ _ _ E0).
  rewrite bind_run. cbn [set_u1].
  rewrite bind_run, (at_run _ _ _ _ Ev1), bind_run, (at_run _ _ _ _ Ev3).
  rewrite bind_run, (at_run _ _ _ _ Ev2), bind_run, (at_run _ _ _ _ E1).
  rewrite bind_run. cbn [get_u1 mret M_ret u1 perpE hull].
  eexists (mkBox _ _ _ _ _), visited'. split; [reflexivity|].
  cbn [u0 u1_ref index sqrLenU0 area].
  split.
  { split; [reflexivity|]. subst nextIndex. cbn [map index].
    repeat (constructor; [apply Hlt|]). constructor. }
  split; [reflexivity|]. split; [reflexivity|].
  split.
  { unfold hull_edge, ix. cbn [index]. fold j1. rewrite E1.
    cbn [mbind option_bind]. fold j0. rewrite E0. reflexivity. }
  split; [reflexivity|].
  unfold recomputed_area, ix. cbn [index u0 sqrLenU0].
  rewrite Ev1. cbn [mbind option_bind]. rewrite Ev3. cbn [mbind option_bind].
  rewrite Ev2. cbn [mbind option_bind]. fold j1. rewrite E1. reflexivity.
Qed.

(** *** smallestBox *)

Lemma scan_ok_insert n i1 (s : Scan F) k i (v : list (Vector2 F)) :
  scan_ok n i1 s -> (i < n)%nat ->
  scan_ok n i1 (mkScan (<[S k := i]> (scan_index s)) v).
Proof.
  intros (Hlen & Hall & H0) Hi. split; [|split]; simpl.
  - rewrite length_insert. assumption.
  - apply Forall_insert; assumption.
  - rewrite list_lookup_insert_ne by lia. assumption.
Qed.

Lemma scan_vertex_ok n i1 b_u0 b_u1 origin (s : Scan F) i vertex :
  scan_ok n i1 s -> (i < n)%nat ->
  scan_ok n i1 (scan_vertex b_u0 b_u1 origin s i vertex).
Proof.
  intros Hs Hi. unfold scan_vertex. cbv zeta.
  repeat match goal with
  | |- context [if ?c then _ else _] => destruct c
  end; repeat apply scan_ok_insert; assumption.
Qed.

Lemma scan_from_ok n i1 b_u0 b_u1 origin vertices :
  forall (s : Scan F) i,
    scan_ok n i1 s -> (i + length vertices <= n)%nat ->
    scan_ok n i1 (scan_from b_u0 b_u1 origin s i vertices).
Proof.
  induction vertices as [|vertex rest IH]; intros s i Hs Hi; simpl;
    [assumption|].
  simpl in Hi. apply IH; [|lia]. apply scan_vertex_ok; [assumption | lia].
Qed.

(** [smallestBox] on two vertices of the polygon. *)
Lemma smallestBox_run i0 i1 vertices vi0 vi1 :
  vertices !! i0 = Some vi0 -> vertices !! i1 = Some vi1 ->
  exists b, smallestBox i0 i1 vertices = Ok b /\
    box_ok (length vertices) b /\
    u0 b = subVectors vi1 vi0 /\
    u1_ref b = Own (mkVector2 (fneg (y (u0 b))) (x (u0 b))) /\
    sqrLenU0 b = dot (u0 b) (u0 b) /\
    ix b 0 = i1.
Proof.
  intros E0 E1. unfold smallestBox. rewrite E1, E0. cbv zeta.
  eexists (mkBox _ _ _ _ _). split; [reflexivity|].
  unfold ix. cbn [u0 u1_ref index sqrLenU0].
  match goal with
  | |- context [scan_from ?a ?b ?c ?s 0 vertices] =>
      pose proof (scan_from_ok (length vertices) i1 a b c vertices s 0) as Hscan
  end.
  pose proof (lookup_lt_Some _ _ _ E1) as Hi1.
  destruct Hscan as (Hlen & Hall & H0).
  { split; [reflexivity|]. cbn [scan_index].
    split; [|reflexivity]. repeat (constructor; [exact Hi1|]). constructor. }
  { lia. }
  split; [split; assumption|].
  repeat (split; [reflexivity|]).
  rewrite H0. reflexivity.
Qed.

Lemma cloneDeep_run b h :
  cloneDeep b h
    = (h, Ok (mkBox (u0 b) (Own (u1_of h b)) (index b) (sqrLenU0 b) (area b))).
Proof. unfold cloneDeep, read_ref, u1_of. destruct (u1_ref b); reflexivity. Qed.

Lemma box_ok_index n b b' : index b' = index b -> box_ok n b -> box_ok n b'.
Proof. unfold box_ok. intros ->. trivial. Qed.

(** *** The loop *)

Ltac split_locals :=
  unfold locals_ok; cbn [fst snd minBox box angleInfo visited];
  refine (conj _ (conj _ (conj _ (conj _ _)))); try assumption.

Lemma caliperRound_returns vertices l h :
  locals_ok vertices l -> (0 < length vertices)%nat ->
  returns (caliperRound vertices l) h
    (fun _ r => locals_ok vertices r.2).
Proof.
  intros (Hmin & Hbox & Hslots & Hown & Hedge) Hn. unfold caliperRound.
  apply returns_bind. eapply returns_mono;
    [apply computeAngles_returns; assumption|].
  intros h1 [[[found b1] a1] n1] (Eidx & Hs1 & Hw1 & Hn1 & Efound & _).
  assert (Hb1 : box_ok (length vertices) b1) by (eapply box_ok_index; eauto).
  destruct found; cbn [negb].
  2:{ apply returns_ret. split_locals. }
  symmetry in Efound. apply Nat.ltb_lt in Efound.
  destruct (updateSupport_run a1 n1 (sortAngles a1 n1) vertices (visited l) b1 h1)
    as (minAngle & b2 & parallel & _ & _ & Hb2 & _ & _ & _ & _ & Hrun);
    [|assumption|].
  { split; [|assumption]. intros k Hk. apply sortAngles_written; [assumption..|lia]. }
  apply returns_bind.
  destruct (default false (visited l !! ix b2 (indexOfBox minAngle))).
  - apply returns_run. eexists _, _. split; [exact Hrun|]. cbn [negb].
    apply returns_ret. split_locals.
  - destruct Hrun as (b' & visited' & Hrun & Hb' & Hu1 & _ & Hedge' & _).
    apply returns_run. eexists _, _. split; [exact Hrun|]. cbn [negb].
    apply returns_bind. destruct (fle (area b') (area (minBox l))).
    + apply returns_run. eexists _, _. split; [apply cloneDeep_run|].
      apply returns_ret. split_locals; cbn [u1_ref u0].
      * eauto.
      * exists (ix b' 0). split; [apply ix_lt|]; assumption.
    + apply returns_ret, returns_ret. split_locals.
Qed.

Lemma caliperLoop_returns vertices rounds :
  forall l h,
    locals_ok vertices l -> (0 < length vertices)%nat ->
    returns (caliperLoop rounds vertices l) h
      (fun _ l' => locals_ok vertices l').
Proof.
  induction rounds as [|rounds IH]; intros l h Hl Hn; simpl.
  - apply returns_ret. assumption.
  - apply returns_bind. eapply returns_mono;
      [apply caliperRound_returns; assumption|].
    intros h1 [again l1] Hl1. cbn [snd] in Hl1.
    destruct again; cbn [negb]; [apply IH; assumption|].
    apply returns_ret. assumption.
Qed.

Lemma caliperStart_returns h :
  hull h <> [] ->
  returns caliperStart h
    (fun h' r => h' = h /\ r.1 = vertices_of (hull h) /\ locals_ok r.1 r.2).
Proof.
  intros Hne. unfold caliperStart. apply returns_bind, returns_get_hull.
  set (vertices := vertices_of (hull h)).
  assert (Hn : (0 < length vertices)%nat).
  { unfold vertices, vertices_of. rewrite length_map.
    destruct (hull h); [congruence | simpl; lia]. }
  destruct (vertex_exists vertices 0%nat) as [v0 E0]; [lia|].
  destruct (vertex_exists vertices (length vertices - 1)%nat) as [vl El]; [lia|].
  destruct (smallestBox_run _ _ _ _ _ El E0)
    as (b & Eb & Hb & Hu0 & Hu1 & _ & Hix).
  apply returns_bind. unfold lift at 1. unfold returns at 1. rewrite Eb.
  apply returns_bind. apply returns_run. eexists _, _.
  split; [apply cloneDeep_run|]. apply returns_ret.
  split; [reflexivity|]. split; [reflexivity|].
  split_locals; cbn [u1_ref u0 index].
  - reflexivity.
  - eauto.
  - exists 0%nat. split; [assumption|]. unfold hull_edge. rewrite E0.
    cbn [mbind option_bind]. rewrite El. cbn [mbind option_bind].
    rewrite Hu0. reflexivity.
Qed.

Lemma box_ok_pos n b : box_ok n b -> (0 < n)%nat.
Proof.
  intros [Hlen Hall]. destruct (index b) as [|i rest]; [discriminate|].
  apply Forall_cons in Hall. lia.
Qed.

Lemma bestBox_returns h :
  hull h <> [] ->
  returns bestBox h
    (fun _ r =>
       r.1 = vertices_of (hull h) /\
       box_ok (length r.1) r.2 /\
       (exists v, u1_ref r.2 = Own v) /\
       exists i, (i < length r.1)%nat /\ hull_edge r.1 i = Some (u0 r.2)).
Proof.
  intros Hne. unfold bestBox. apply returns_bind.
  eapply returns_mono; [apply caliperStart_returns; assumption|].
  intros h1 [vertices l] (-> & Ev & Hl). cbn [fst snd] in Ev, Hl.
  apply returns_bind.
  eapply returns_mono;
    [apply caliperLoop_returns;
       [assumption | destruct Hl as [Hmin _]; eapply box_ok_pos; exact Hmin]|].
  intros h2 l' (Hmin & _ & _ & Hown & Hedge).
  apply returns_ret. cbn [fst snd]. auto.
Qed.


Lemma rectOf_returns vertices b h :
  box_ok (length vertices) b -> (exists v, u1_ref b = Own v) ->
  returns (rectOf vertices b) h
    (fun h' r => h' = h /\ angle r = atan2 (y (u0 b)) (x (u0 b))).
Proof.
  intros Hb [v1 Hv1]. pose proof (box_ok_pos _ _ Hb) as Hn.
  assert (Hlt : forall k, (ix b k < length vertices)%nat)
    by (intros k; apply ix_lt; assumption).
  unfold rectOf. cbv zeta. rewrite Hv1. cbn [read_ref].
  apply returns_bind, returns_ret.
  destruct (vertex_exists vertices (ix b 3)) as [p3 E3]; [apply Hlt|].
  destruct (vertex_exists vertices (ix b 1)) as [p1 E1]; [apply Hlt|].
  destruct (vertex_exists vertices (ix b 2)) as [p2 E2]; [apply Hlt|].
  destruct (vertex_exists vertices (ix b 0)) as [p0 E0]; [apply Hlt|].
  destruct (vertex_exists vertices
    (if Nat.eqb (ix b 0) 0 then (length vertices - 1)%nat else (ix b 0 - 1)%nat))
    as [po Eo].
  { destruct (Nat.eqb (ix b 0) 0); [lia|]. specialize (Hlt 0%nat). lia. }
  apply returns_bind. eapply returns_at; [exact E3|].
  apply returns_bind. eapply returns_at; [exact Eo|].
  apply returns_bind. eapply returns_at; [exact E1|].
  apply returns_bind. eapply returns_at; [exact E3|].
  apply returns_bind. eapply returns_at; [exact E2|].
  apply returns_bind. eapply returns_at; [exact E0|].
  apply returns_ret. split; reflexivity.
Qed.

Lemma rotatingCaliper_returns h :
  hull h <> [] ->
  returns rotatingCaliper h
    (fun _ r =>
       exists i e, (i < length (hull h))%nat /\
         hull_edge (vertices_of (hull h)) i = Some e /\
         angle r = atan2 (y e) (x e)).
Proof.
  intros Hne. unfold rotatingCaliper. apply returns_bind.
  eapply returns_mono; [apply bestBox_returns; assumption|].
  intros h1 [vertices b] (Ev & Hb & Hown & i & Hi & Hedge).
  cbn [fst snd] in *. subst vertices.
  eapply returns_mono; [apply rectOf_returns; assumption|].
  intros h2 r [_ Hr]. exists i, (u0 b).
  unfold vertices_of in Hi. rewrite length_map in Hi. auto.
Qed.

Lemma rotatingCaliper_empty h :
  hull h = [] -> rotatingCaliper h = (h, TypeError).
Proof.
  intros E. unfold rotatingCaliper, bestBox, caliperStart.
  rewrite !bind_run. unfold get_hull. rewrite E. reflexivity.
Qed.

(** C1, as amended. [rotatingCaliper] does not check the size of its input.
    On an input of fewer than three vertices: the empty array makes it fail
    with a [TypeError], which [smallestBox] raises at its first vertex
    access; an array of one or two vertices goes through the index
    computation, and a rectangle is returned without anything raised. *)
Theorem small_input_not_validated (h : Heap F) :
  (length (hull h) < 3)%nat ->
  match hull h with
  | [] => rotatingCaliper h = (h, TypeError)
  | _ :: _ => exists r, (rotatingCaliper h).2 = Ok r
  end.
Proof.
  intros _. destruct (hull h) as [|p rest] eqn:E.
  - apply rotatingCaliper_empty. exact E.
  - assert (Hne : hull h <> []) by (rewrite E; discriminate).
    pose proof (rotatingCaliper_returns h Hne) as Hr.
    apply returns_run in Hr. destruct Hr as (h' & r & Er & _).
    exists r. rewrite Er. reflexivity.
Qed.

(** C9. On every input that is not empty, the box of least area that the loop
    leaves has [u[0]] equal to the edge [vertex[i] - vertex[i - 1 mod n]]
    of the polygon for some [i], and the angle returned is the angle of that
    edge: a side of the rectangle returned is parallel to an edge of the
    polygon. *)
Theorem best_box_along_hull_edge (h : Heap F) :
  (0 < length (hull h))%nat ->
  exists h1 minBox i e h2 r,
    bestBox h = (h1, Ok (vertices_of (hull h), minBox)) /\
    (i < length (hull h))%nat /\
    hull_edge (vertices_of (hull h)) i = Some e /\
    u0 minBox = e /\
    rotatingCaliper h = (h2, Ok r) /\
    angle r = atan2 (y e) (x e).
Proof.
  intros Hlen. assert (Hne : hull h <> []).
  { intros E. rewrite E in Hlen. simpl in Hlen. lia. }
  pose proof (bestBox_returns h Hne) as Hb. apply returns_run in Hb.
  destruct Hb as (h1 & [vertices b] & Eb & Ev & Hb & Hown & i & Hi & Hedge).
  cbn [fst snd] in *. subst vertices.
  pose proof (rectOf_returns (vertices_of (hull h)) b h1 Hb Hown) as Hr.
  apply returns_run in Hr. destruct Hr as (h2 & r & Er & _ & Ha).
  exists h1, b, i, (u0 b), h2, r.
  split; [exact Eb|]. split.
  { unfold vertices_of in Hi. rewrite length_map in Hi. exact Hi. }
  split; [exact Hedge|]. split; [reflexivity|]. split; [|exact Ha].
  unfold rotatingCaliper. rewrite bind_run, Eb. exact Er.
Qed.

(** C8. On arguments it can run on, [updateSupport] returns [false]
    exactly when, once the first loop has moved the indices of the sides
    at the least angle, the index [bottom] of the side of the least angle is
    marked in [visited]; and when it returns [false] nothing else has
    changed: the module's vectors, [visited], the box's axes, [sqrLenU0]
    and [area] are as they were, and the indices are the moved ones, not
    rotated. *)
Theorem updateSupport_false_iff_visited
    angleInfo angleNum sort vertices visited (b : Box F) h :
  support_args_ok angleInfo angleNum sort vertices b ->
  exists minAngle b1 parallel h' r b' visited',
    angle_at angleInfo sort 0 h = (h, Ok minAngle) /\
    advance angleInfo sort vertices minAngle 0 angleNum b 0 h
      = (h, Ok (b1, parallel)) /\
    updateSupport angleInfo angleNum sort vertices visited b h
      = (h', Ok (r, b', visited')) /\
    (r = false <->
     default false (visited !! ix b1 (indexOfBox minAngle)) = true) /\
    (r = false ->
     h' = h /\ visited' = visited /\ b' = b1 /\
     u0 b' = u0 b /\ u1_ref b' = u1_ref b /\
     sqrLenU0 b' = sqrLenU0 b /\ area b' = area b).
Proof.
  intros Hargs. pose proof (box_ok_pos _ _ (proj2 Hargs)) as Hn.
  destruct (updateSupport_run angleInfo angleNum sort vertices visited b h
              Hargs Hn)
    as (minAngle & b1 & parallel & Emin & Eadv & _ & Hu0 & Hu1 & Hsq & Har & Hrun).
  exists minAngle, b1, parallel.
  destruct (default false (visited !! ix b1 (indexOfBox minAngle))).
  - exists h, false, b1, visited.
    split; [assumption|]. split; [assumption|]. split; [assumption|].
    split; [tauto|]. intros _. repeat (split; [trivial|]). assumption.
  - destruct Hrun as (b' & visited' & Hrun & _).
    eexists _, true, b', visited'.
    split; [assumption|]. split; [assumption|]. split; [exact Hrun|].
    split; [split; discriminate|]. discriminate.
Qed.

(** ** What [updateSupport] leaves when it returns [true] *)

Lemma bind_inv {A B} (m : M F A) (f : A -> M F B) h h' (r : B) :
  (m ≫= f) h = (h', Ok r) ->
  exists h1 a, m h = (h1, Ok a) /\ f a h1 = (h', Ok r).
Proof.
  rewrite bind_run. destruct (m h) as [h1 [a|]]; [eauto | discriminate].
Qed.

Lemma at_inv {A} (a : list A) i h h' v :
  at_ a i h = (h', Ok v) -> h' = h /\ a !! i = Some v.
Proof.
  unfold at_. destruct (a !! i); [|discriminate].
  intros [= <- <-]. auto.
Qed.

Lemma angle_at_heap angleInfo sort k h h' (o : outcome (AngleInfo F)) :
  angle_at angleInfo sort k h = (h', o) -> h' = h.
Proof.
  unfold angle_at. destruct (sort !! k) as [i|]; [|intros [= <- _]; trivial].
  destruct (angleInfo !! i) as [[a|]|]; intros [= <- _]; trivial.
Qed.

Lemma advance_heap angleInfo sort vertices minAngle rounds :
  forall k b parallel h h' o,
    advance angleInfo sort vertices minAngle k rounds b parallel h = (h', o) ->
    h' = h.
Proof.
  induction rounds as [|rounds IH]; intros k b parallel h h' o; simpl.
  - intros [= <- _]. reflexivity.
  - rewrite bind_run.
    destruct (angle_at angleInfo sort k h) as [h1 [a|]] eqn:E;
      apply angle_at_heap in E; subst h1; [|intros [= <- _]; reflexivity].
    destruct (feq _ _); apply IH.
Qed.

Lemma mark_heap angleInfo sort b rounds :
  forall k visited h h' o,
    mark angleInfo sort b k rounds visited h = (h', o) -> h' = h.
Proof.
  induction rounds as [|rounds IH]; intros k visited h h' o; simpl.
  - intros [= <- _]. reflexivity.
  - rewrite bind_run.
    destruct (angle_at angleInfo sort k h) as [h1 [a|]] eqn:E;
      apply angle_at_heap in E; subst h1; [|intros [= <- _]; reflexivity].
    apply IH.
Qed.

(** When [updateSupport] returns [true], the box it leaves satisfies the
    invariant. *)
Lemma updateSupport_true_invariant
    angleInfo angleNum sort vertices visited b h h' b' visited' :
  updateSupport angleInfo angleNum sort vertices visited b h
    = (h', Ok (true, b', visited')) ->
  box_invariant vertices h' b'.
Proof.
  unfold updateSupport. intros Hrun.
  apply bind_inv in Hrun as (h1 & minAngle & E1 & Hrun).
  apply angle_at_heap in E1. subst h1.
  apply bind_inv in Hrun as (h2 & [b1 parallel] & E2 & Hrun).
  apply advance_heap in E2. subst h2.
  destruct (default false _); [discriminate|].
  apply bind_inv in Hrun as (h3 & visited3 & E3 & Hrun).
  apply mark_heap in E3. subst h3. cbv zeta in Hrun.
  set (nextIndex := map _ _) in Hrun.
  apply bind_inv in Hrun as (h4 & vj1 & E4 & Hrun).
  apply at_inv in E4 as [-> Ej1].
  apply bind_inv in Hrun as (h5 & vj0 & E5 & Hrun).
  apply at_inv in E5 as [-> Ej0].
  apply bind_inv in Hrun as (h6 & [] & E6 & Hrun).
  injection E6 as <-.
  apply bind_inv in Hrun as (h7 & v1 & E7 & Hrun).
  apply at_inv in E7 as [-> Ev1].
  apply bind_inv in Hrun as (h8 & v3 & E8 & Hrun).
  apply at_inv in E8 as [-> Ev3].
  apply bind_inv in Hrun as (h9 & v2 & E9 & Hrun).
  apply at_inv in E9 as [-> Ev2].
  apply bind_inv in Hrun as (h10 & v0 & E10 & Hrun).
  apply at_inv in E10 as [-> Ev0].
  apply bind_inv in Hrun as (h11 & b_u1 & E11 & Hrun).
  injection E11 as <- <-. injection Hrun as <- <- <-.
  split; [reflexivity|].
  unfold recomputed_area, ix, u1_of. cbn [index u0 u1_ref sqrLenU0 area u1].
  rewrite Ev1. cbn [mbind option_bind]. rewrite Ev3. cbn [mbind option_bind].
  rewrite Ev2. cbn [mbind option_bind]. rewrite Ev0. reflexivity.
Qed.

(** ** The frame: the caller's array *)

Create HintDb keeps discriminated.
Lemma keeps_hull_ret {A} (a : A) : keeps_hull (F:=F) (mret a).
Proof. intros h. reflexivity. Qed.

Lemma keeps_hull_throw {A} : keeps_hull (@throw F A).
Proof. intros h. reflexivity. Qed.

Lemma keeps_hull_bind {A B} (m : M F A) (f : A -> M F B) :
  keeps_hull m -> (forall a, keeps_hull (f a)) -> keeps_hull (m ≫= f).
Proof.
  intros Hm Hf h. rewrite bind_run. specialize (Hm h).
  destruct (m h) as [h' [a|]]; simpl in *; [|assumption].
  rewrite Hf. assumption.
Qed.

Lemma keeps_hull_get_perpE : keeps_hull (F:=F) (@get_perpE F).
Proof. intros h. reflexivity. Qed.
Lemma keeps_hull_get_u1 : keeps_hull (F:=F) (@get_u1 F).
Proof. intros h. reflexivity. Qed.
Lemma keeps_hull_get_hull : keeps_hull (F:=F) (@get_hull F).
Proof. intros h. reflexivity. Qed.
Lemma keeps_hull_set_perpE v : keeps_hull (F:=F) (@set_perpE F v).
Proof. intros h. reflexivity. Qed.
Lemma keeps_hull_set_u1 v : keeps_hull (F:=F) (@set_u1 F v).
Proof. intros h. reflexivity. Qed.
Lemma keeps_hull_lift {A} (o : outcome A) : keeps_hull (F:=F) (@lift F A o).
Proof. intros h. reflexivity. Qed.

#[local] Hint Resolve keeps_hull_ret keeps_hull_throw keeps_hull_get_perpE
  keeps_hull_get_u1 keeps_hull_get_hull
  keeps_hull_set_perpE keeps_hull_set_u1 keeps_hull_lift : keeps.

Ltac keeps_step :=
  first
    [ solve [auto 1 with keeps nocore]
    | apply keeps_hull_bind; [|intros ?]
    | match goal with
      | |- keeps_hull (match ?a with _ => _ end) => destruct a
      | |- keeps_hull (let (_, _) := ?a in _) => destruct a
      end ].
Ltac keeps := repeat keeps_step.

Lemma keeps_hull_at {A} (a : list A) i : keeps_hull (F:=F) (@at_ F A a i).
Proof. unfold at_. keeps. Qed.
Lemma keeps_hull_read_ref r : keeps_hull (F:=F) (@read_ref F r).
Proof. unfold read_ref. keeps. Qed.
#[local] Hint Resolve keeps_hull_at keeps_hull_read_ref : keeps.
Lemma keeps_hull_box_u b k : keeps_hull (F:=F) (@box_u F b k).
Proof. unfold box_u. keeps. Qed.
Lemma keeps_hull_box_u_negate b k : keeps_hull (F:=F) (@box_u_negate F _ b k).
Proof. unfold box_u_negate. keeps. Qed.
Lemma keeps_hull_cloneDeep b : keeps_hull (F:=F) (@cloneDeep F b).
Proof. unfold cloneDeep. keeps. Qed.
Lemma keeps_hull_angle_at a s k : keeps_hull (F:=F) (@angle_at F a s k).
Proof. unfold angle_at. keeps. Qed.
#[local] Hint Resolve keeps_hull_box_u keeps_hull_box_u_negate
  keeps_hull_cloneDeep keeps_hull_angle_at : keeps.

Lemma keeps_hull_angle_side vs st k0 k1 : keeps_hull (F:=F) (angle_side vs st k0 k1).
Proof. unfold angle_side. keeps. Qed.
#[local] Hint Resolve keeps_hull_angle_side : keeps.

Lemma keeps_hull_computeAngles vs b a : keeps_hull (F:=F) (computeAngles vs b a).
Proof. unfold computeAngles. keeps. Qed.

Lemma keeps_hull_advance a s vs m k r b p : keeps_hull (F:=F) (advance a s vs m k r b p).
Proof.
  revert k b p. induction r as [|r IH]; intros k b p; simpl; keeps.
Qed.

Lemma keeps_hull_mark a s b k r v : keeps_hull (F:=F) (@mark F a s b k r v).
Proof.
  revert k v. induction r as [|r IH]; intros k v; simpl; keeps.
Qed.
#[local] Hint Resolve keeps_hull_computeAngles keeps_hull_advance
  keeps_hull_mark : keeps.

Lemma keeps_hull_updateSupport a n s vs v b :
  keeps_hull (updateSupport a n s vs v b).
Proof. unfold updateSupport. keeps. Qed.
#[local] Hint Resolve keeps_hull_updateSupport : keeps.

Lemma keeps_hull_caliperRound vs l : keeps_hull (F:=F) (caliperRound vs l).
Proof. unfold caliperRound. keeps. Qed.
#[local] Hint Resolve keeps_hull_caliperRound : keeps.

Lemma keeps_hull_caliperLoop r vs l : keeps_hull (F:=F) (caliperLoop r vs l).
Proof.
  revert l. induction r as [|r IH]; intros l; simpl; keeps.
Qed.

Lemma keeps_hull_caliperStart : keeps_hull (F:=F) (@caliperStart F _).
Proof. unfold caliperStart. keeps. Qed.
#[local] Hint Resolve keeps_hull_caliperLoop keeps_hull_caliperStart : keeps.

Lemma keeps_hull_bestBox : keeps_hull (F:=F) (@bestBox F _).
Proof. unfold bestBox. keeps. Qed.

Lemma keeps_hull_rectOf vs b : keeps_hull (F:=F) (rectOf vs b).
Proof. unfold rectOf. keeps. Qed.
#[local] Hint Resolve keeps_hull_bestBox keeps_hull_rectOf : keeps.

(** C10. [rotatingCaliper] never writes to its argument: whatever the
    outcome of the call, the caller's array and its pairs are in the final
    heap what they were in the initial one. *)
Theorem rotatingCaliper_keeps_hull (h : Heap F) :
  hull (rotatingCaliper h).1 = hull h.
Proof.
  assert (Hk : keeps_hull (F:=F) (@rotatingCaliper F _ _)) by (unfold rotatingCaliper; keeps).
  apply Hk.
Qed.

(** ** Two runs from heaps that differ in the module's vectors *)

Lemma same_ret {A} (a : A) P (Q : A -> Heap F -> Heap F -> Prop) :
  (forall h h', P h h' -> Q a h h') -> same_outcome P (mret a) Q.
Proof. intros HQ h h' HP. simpl. split; [reflexivity | auto]. Qed.

Lemma same_throw {A} P (Q : A -> Heap F -> Heap F -> Prop) :
  same_outcome P throw Q.
Proof. intros h h' HP. exact I. Qed.

Lemma same_bind {A B} (m : M F A) (f : A -> M F B) P
    (Q : A -> Heap F -> Heap F -> Prop) (R : B -> Heap F -> Heap F -> Prop) :
  same_outcome P m Q -> (forall a, same_outcome (Q a) (f a) R) ->
  same_outcome P (m ≫= f) R.
Proof.
  intros Hm Hf h h' HP. rewrite !bind_run. specialize (Hm h h' HP).
  destruct (m h) as [h1 [a|]], (m h') as [h1' [a'|]]; try contradiction;
    [|exact I].
  destruct Hm as [<- HQ]. apply Hf. exact HQ.
Qed.

Lemma same_conseq {A} (m : M F A) P P'
    (Q Q' : A -> Heap F -> Heap F -> Prop) :
  same_outcome P m Q ->
  (forall h h', P' h h' -> P h h') ->
  (forall a h h', Q a h h' -> Q' a h h') ->
  same_outcome P' m Q'.
Proof.
  intros Hm HP HQ h h' HP'. specialize (Hm h h' (HP _ _ HP')).
  destruct (m h) as [h1 [a|]], (m h') as [h1' [a'|]]; try contradiction;
    [|exact I].
  destruct Hm as [<- Hq]. split; [reflexivity | auto].
Qed.

Lemma same_at {A} (a : list A) i P : same_outcome P (at_ a i) (fun _ => P).
Proof.
  unfold at_. destruct (a !! i); [apply same_ret | apply same_throw]; auto.
Qed.

Lemma same_angle_at angleInfo sort k P :
  same_outcome P (angle_at angleInfo sort k) (fun _ : AngleInfo F => P).
Proof.
  unfold angle_at. destruct (sort !! k) as [i|]; [|apply same_throw].
  destruct (angleInfo !! i) as [[a|]|];
    [apply same_ret | apply same_throw..]; auto.
Qed.

Lemma agree_weaken kp ku kp' ku' (h h' : Heap F) :
  agree kp ku h h' -> (kp' = true -> kp = true) -> (ku' = true -> ku = true) ->
  agree kp' ku' h h'.
Proof. intros (Hh & Hp & Hu) Ip Iu. split; [|split]; auto. Qed.

Lemma same_get_hull kp ku :
  same_outcome (F:=F) (agree kp ku) get_hull (fun _ => agree kp ku).
Proof. intros h h' Ha. simpl. split; [apply Ha | exact Ha]. Qed.

Lemma same_get_u1 kp :
  same_outcome (F:=F) (agree kp true) get_u1 (fun _ => agree kp true).
Proof. intros h h' Ha. simpl. split; [apply Ha; reflexivity | exact Ha]. Qed.

Lemma same_get_perpE ku :
  same_outcome (F:=F) (agree true ku) get_perpE (fun _ => agree true ku).
Proof. intros h h' Ha. simpl. split; [apply Ha; reflexivity | exact Ha]. Qed.

Lemma same_set_u1 kp ku (v : Vector2 F) :
  same_outcome (agree kp ku) (set_u1 v) (fun _ => agree kp true).
Proof.
  intros h h' (Hh & Hp & Hu). simpl. split; [reflexivity|].
  split; [|split]; simpl; auto.
Qed.

Lemma same_set_perpE kp ku (v : Vector2 F) :
  same_outcome (agree kp ku) (set_perpE v) (fun _ => agree true ku).
Proof.
  intros h h' (Hh & Hp & Hu). simpl. split; [reflexivity|].
  split; [|split]; simpl; auto.
Qed.

Lemma same_read_ref kp b :
  same_outcome (agree kp (uses_module b)) (read_ref (u1_ref b))
    (fun _ => agree kp (uses_module b)).
Proof.
  unfold uses_module, read_ref. destruct (u1_ref b).
  - apply same_ret. auto.
  - apply same_get_u1.
Qed.

Lemma same_box_u kp b k :
  same_outcome (agree kp (uses_module b)) (box_u b k)
    (fun _ => agree kp (uses_module b)).
Proof.
  unfold box_u. destruct k; [apply same_ret; auto | apply same_read_ref].
Qed.

Lemma same_box_u_negate kp b k :
  same_outcome (agree kp (uses_module b)) (box_u_negate b k)
    (fun r h h' => agree kp (uses_module b) h h' /\
                   uses_module r.2 = uses_module b).
Proof.
  unfold box_u_negate. destruct k.
  - apply same_ret. auto.
  - unfold uses_module. destruct (u1_ref b) eqn:E.
    + apply same_ret. auto.
    + eapply same_bind; [apply same_get_u1|]. intros v.
      eapply same_bind; [apply same_set_u1|]. intros [].
      apply same_ret. intros h h' Ha. simpl. rewrite E. auto.
Qed.

Lemma same_cloneDeep kp b :
  same_outcome (agree kp (uses_module b)) (cloneDeep b)
    (fun b' h h' => agree kp (uses_module b) h h' /\ uses_module b' = false).
Proof.
  unfold cloneDeep. eapply same_bind; [apply same_read_ref|].
  intros v. apply same_ret. auto.
Qed.

Lemma same_angle_side vertices b angleInfo angleNum k0 k1 :
  same_outcome (agree false (uses_module b))
    (angle_side vertices (b, angleInfo, angleNum) k0 k1)
    (fun r h h' => agree false (uses_module r.1.1) h h').
Proof.
  unfold angle_side. destruct (bool_decide _); [|apply same_ret; auto].
  eapply same_bind with
    (Q := fun r h h' => agree false (uses_module r.2) h h').
  { destruct (negb _).
    - eapply same_conseq;
        [apply (same_box_u_negate false) | intros h h' Ha; exact Ha |].
      intros r h h' [Ha E]. rewrite E. exact Ha.
    - eapply same_bind; [apply same_box_u|]. intros d.
      apply same_ret. auto. }
  intros [d b']. cbn [snd].
  eapply same_bind; [apply same_at|]. intros vj1.
  eapply same_bind; [apply same_at|]. intros vj0. cbv zeta.
  eapply same_bind; [apply same_set_perpE|]. intros [].
  eapply same_bind; [apply same_get_perpE|]. intros p.
  apply same_ret. intros h h' Ha. cbn [fst]. eapply agree_weaken; eauto.
Qed.

Lemma same_computeAngles vertices b angleInfo :
  same_outcome (agree false (uses_module b))
    (computeAngles vertices b angleInfo)
    (fun r h h' => agree false (uses_module r.1.1.2) h h').
Proof.
  unfold computeAngles.
  eapply same_bind; [apply same_angle_side|]. intros [[b1 a1] n1].
  eapply same_bind; [apply same_angle_side|]. intros [[b2 a2] n2].
  eapply same_bind; [apply same_angle_side|]. intros [[b3 a3] n3].
  eapply same_bind; [apply same_angle_side|]. intros [[b4 a4] n4].
  apply same_ret. auto.
Qed.

Lemma same_advance angleInfo sort vertices minAngle rounds P :
  forall k b parallel,
    same_outcome P
      (advance angleInfo sort vertices minAngle k rounds b parallel)
      (fun r h h' => P h h' /\ uses_module r.1 = uses_module b).
Proof.
  induction rounds as [|rounds IH]; intros k b parallel; simpl.
  - apply same_ret. auto.
  - eapply same_bind; [apply same_angle_at|]. intros a.
    destruct (feq _ _); [|apply IH].
    eapply same_conseq; [apply IH | intros h h' Ha; exact Ha |].
    intros r h h' [HP E]. split; [assumption|]. rewrite E.
    destruct (Nat.eqb _ _); reflexivity.
Qed.

Lemma same_mark angleInfo sort b rounds P :
  forall k visited,
    same_outcome P (mark angleInfo sort b k rounds visited) (fun _ => P).
Proof.
  induction rounds as [|rounds IH]; intros k visited; simpl.
  - apply same_ret. auto.
  - eapply same_bind; [apply same_angle_at|]. intros a. apply IH.
Qed.

Lemma same_updateSupport angleInfo angleNum sort vertices visited b :
  same_outcome (agree false (uses_module b))
    (updateSupport angleInfo angleNum sort vertices visited b)
    (fun r h h' => agree false (uses_module r.1.2) h h').
Proof.
  unfold updateSupport.
  eapply same_bind; [apply same_angle_at|]. intros minAngle.
  eapply same_bind; [apply same_advance|]. intros [b1 parallel]. cbn [fst].
  destruct (default false _).
  { apply same_ret. intros h h' [Ha E]. cbn [fst snd]. rewrite E. exact Ha. }
  eapply same_bind; [apply same_mark|]. intros visited'. cbv zeta.
  eapply same_bind; [apply same_at|]. intros vj1.
  eapply same_bind; [apply same_at|]. intros vj0.
  eapply same_bind.
  { eapply same_conseq; [apply (same_set_u1 false (uses_module b)) | |].
    - intros h h' [Ha _]. exact Ha.
    - intros a h h' Ha. exact Ha. }
  intros [].
  eapply same_bind; [apply same_at|]. intros v1.
  eapply same_bind; [apply same_at|]. intros v3.
  eapply same_bind; [apply same_at|]. intros v2.
  eapply same_bind; [apply same_at|]. intros v0.
  eapply same_bind; [apply same_get_u1|]. intros b_u1.
  apply same_ret. auto.
Qed.

Lemma same_caliperRound vertices l :
  same_outcome (locals_agree l) (caliperRound vertices l)
    (fun r => locals_agree r.2).
Proof.
  unfold caliperRound.
  eapply same_bind with
    (Q := fun r h h' => agree false (uses_module r.1.1.2) h h' /\
                        uses_module (minBox l) = false).
  { intros h h' [Ha Hm]. pose proof (same_computeAngles vertices (box l)
      (angleInfo l) h h' Ha) as Hc.
    destruct (computeAngles _ _ _ h) as [h1 [a|]],
             (computeAngles _ _ _ h') as [h1' [a'|]]; try contradiction;
      [|exact I].
    destruct Hc as [<- Hc]. auto. }
  intros [[[found b1] a1] n1]. cbn [fst snd].
  destruct found; cbn [negb]; [|apply same_ret; intros h h' Ha; exact Ha].
  eapply same_bind with
    (Q := fun r h h' => agree false (uses_module r.1.2) h h' /\
                        uses_module (minBox l) = false).
  { intros h h' [Ha Hm]. pose proof (same_updateSupport a1 n1
      (sortAngles a1 n1) vertices (visited l) b1 h h' Ha) as Hc.
    destruct (updateSupport _ _ _ _ _ _ h) as [h1 [a|]],
             (updateSupport _ _ _ _ _ _ h') as [h1' [a'|]]; try contradiction;
      [|exact I].
    destruct Hc as [<- Hc]. auto. }
  intros [[moved b2] visited2]. cbn [fst snd].
  destruct moved; cbn [negb]; [|apply same_ret; intros h h' Ha; exact Ha].
  eapply same_bind with
    (Q := fun r h h' => agree false (uses_module b2) h h' /\
                        uses_module r = false).
  { destruct (fle _ _).
    - intros h h' [Ha Hm]. pose proof (same_cloneDeep false b2 h h' Ha) as Hc.
      destruct (cloneDeep b2 h) as [h1 [a|]],
               (cloneDeep b2 h') as [h1' [a'|]]; try contradiction; [|exact I].
      exact Hc.
    - apply same_ret. auto. }
  intros minBox'. apply same_ret. intros h h' Ha. exact Ha.
Qed.

Lemma same_caliperLoop vertices rounds :
  forall l,
    same_outcome (locals_agree l) (caliperLoop rounds vertices l)
      (fun l' h h' => uses_module (minBox l') = false /\ hull h = hull h').
Proof.
  induction rounds as [|rounds IH]; intros l; simpl.
  - apply same_ret. intros h h' [Ha Hm]. split; [assumption | apply Ha].
  - eapply same_bind; [apply same_caliperRound|]. intros [again l'].
    cbn [snd]. destruct again; cbn [negb]; [apply IH|].
    apply same_ret. intros h h' [Ha Hm]. split; [assumption | apply Ha].
Qed.

Lemma smallestBox_own i0 i1 vertices b :
  smallestBox i0 i1 vertices = Ok b -> uses_module b = false.
Proof.
  unfold smallestBox. destruct (vertices !! i1); [|discriminate].
  destruct (vertices !! i0); [|discriminate].
  intros [= <-]. reflexivity.
Qed.

Lemma same_pre_fact {A} (m : M F A) P (fact : Prop)
    (Q : A -> Heap F -> Heap F -> Prop) :
  (fact -> same_outcome P m Q) ->
  same_outcome (fun h h' => P h h' /\ fact) m Q.
Proof. intros Hm h h' [HP Hf]. apply Hm; assumption. Qed.

Lemma same_caliperStart :
  same_outcome (agree false false) (@caliperStart F _)
    (fun r => locals_agree r.2).
Proof.
  unfold caliperStart.
  eapply same_bind; [apply same_get_hull|]. intros hl. cbv zeta.
  eapply same_bind with
    (Q := fun r h h' => agree false false h h' /\ uses_module r = false).
  { intros h h' Ha. unfold lift.
    destruct (smallestBox _ _ _) as [b|] eqn:Eb; [|exact I].
    split; [reflexivity|]. split; [assumption|].
    eapply smallestBox_own. exact Eb. }
  intros b. apply same_pre_fact. intros Hown.
  eapply same_bind.
  { eapply same_conseq;
      [apply (same_cloneDeep false b) | | intros a h h' Ha; exact Ha].
    intros h h' Ha. rewrite Hown. exact Ha. }
  intros b'. apply same_ret. intros h h' [Ha Hb']. split; cbn [snd box minBox].
  - rewrite Hb'. rewrite Hown in Ha. exact Ha.
  - exact Hown.
Qed.

Lemma same_bestBox :
  same_outcome (agree false false) (@bestBox F _)
    (fun r h h' => uses_module r.2 = false /\ hull h = hull h').
Proof.
  unfold bestBox. eapply same_bind; [apply same_caliperStart|].
  intros [vertices l]. cbn [snd].
  eapply same_bind; [apply same_caliperLoop|]. intros l'.
  apply same_ret. auto.
Qed.

Lemma same_rectOf vertices b P :
  uses_module b = false ->
  same_outcome P (rectOf vertices b) (fun _ => P).
Proof.
  intros Hown. unfold rectOf, uses_module in *. cbv zeta.
  destruct (u1_ref b) as [v|]; [|discriminate]. cbn [read_ref].
  eapply same_bind; [apply same_ret; intros h h' HP; exact HP|]. intros mu1.
  do 6 (eapply same_bind; [apply same_at|]; intros ?).
  apply same_ret. auto.
Qed.

Lemma same_rotatingCaliper :
  same_outcome (agree false false) (@rotatingCaliper F _ _)
    (fun _ h h' => hull h = hull h').
Proof.
  unfold rotatingCaliper. eapply same_bind; [apply same_bestBox|].
  intros [vertices b]. cbn [snd]. intros h h' [Hown Hh].
  apply (same_rectOf vertices b (fun h h' => hull h = hull h') Hown h h' Hh).
Qed.

(** C5, as amended. [perpE] and [u1] are vectors of the module, shared by
    every call of [rotatingCaliper]; each call writes them before it reads
    them, so the outcome of a call does not depend on what earlier calls
    have left in them. *)
Theorem outcome_independent_of_module_vectors (h h' : Heap F) :
  hull h = hull h' -> (rotatingCaliper h).2 = (rotatingCaliper h').2.
Proof.
  intros Hh.
  assert (Ha : agree false false h h').
  { split; [exact Hh|]. split; discriminate. }
  pose proof (same_rotatingCaliper h h' Ha) as Hr.
  destruct (rotatingCaliper h) as [h1 [r|]],
           (rotatingCaliper h') as [h1' [r'|]]; try contradiction;
    [|reflexivity].
  destruct Hr as [<- _]. reflexivity.
Qed.
End Generic.

(** ** The supports of [smallestBox] *)

Section Supports.
Context {F : Type} {num : Number F} {math : NumberMath F}.
Context (laws : order_laws F).
Implicit Types (p q r v s : Vector2 F).

Ltac order_step :=
  match goal with
  | H : (_ || _) = true |- _ => apply orb_true_iff in H as [H|H]
  | H : (_ && _) = true |- _ => apply andb_true_iff in H as [? ?]
  end.

Lemma exceeds1_irrefl p : exceeds1 p p = false.
Proof.
  unfold exceeds1. rewrite !(flt_irrefl F laws), andb_false_r. reflexivity.
Qed.
Lemma exceeds2_irrefl p : exceeds2 p p = false.
Proof.
  unfold exceeds2. rewrite !(flt_irrefl F laws), andb_false_r. reflexivity.
Qed.
Lemma exceeds3_irrefl p : exceeds3 p p = false.
Proof.
  unfold exceeds3. rewrite !(flt_irrefl F laws), andb_false_r. reflexivity.
Qed.

Ltac order_solve :=
  pose proof (flt_trans F laws); pose proof (flt_feq_trans F laws);
  pose proof (feq_flt_trans F laws); pose proof (feq_trans F laws);
  pose proof (feq_sym F laws);
  repeat order_step;
  apply orb_true_iff;
  first [ left; solve [eauto]
        | right; apply andb_true_iff; split; solve [eauto] ].

Lemma exceeds1_trans p q r :
  exceeds1 p q = true -> exceeds1 q r = true -> exceeds1 p r = true.
Proof. unfold exceeds1. intros H1 H2. order_solve. Qed.
Lemma exceeds2_trans p q r :
  exceeds2 p q = true -> exceeds2 q r = true -> exceeds2 p r = true.
Proof. unfold exceeds2. intros H1 H2. order_solve. Qed.
Lemma exceeds3_trans p q r :
  exceeds3 p q = true -> exceeds3 q r = true -> exceeds3 p r = true.
Proof. unfold exceeds3. intros H1 H2. order_solve. Qed.

(** A support that has just been exceeded by [p] is exceeded by whatever
    exceeds [p]. *)
Lemma exceeds1_new p s w :
  exceeds1 p s = true -> exceeds1 w s = false -> exceeds1 w p = false.
Proof.
  intros Hp Hw. destruct (exceeds1 w p) eqn:E; [|reflexivity].
  rewrite (exceeds1_trans _ _ _ E Hp) in Hw. discriminate.
Qed.
Lemma exceeds2_new p s w :
  exceeds2 p s = true -> exceeds2 w s = false -> exceeds2 w p = false.
Proof.
  intros Hp Hw. destruct (exceeds2 w p) eqn:E; [|reflexivity].
  rewrite (exceeds2_trans _ _ _ E Hp) in Hw. discriminate.
Qed.
Lemma exceeds3_new p s w :
  exceeds3 p s = true -> exceeds3 w s = false -> exceeds3 w p = false.
Proof.
  intros Hp Hw. destruct (exceeds3 w p) eqn:E; [|reflexivity].
  rewrite (exceeds3_trans _ _ _ E Hp) in Hw. discriminate.
Qed.

Lemma same_place_sym p q : same_place p q -> same_place q p.
Proof. intros [? ?]. split; apply (feq_sym F laws); assumption. Qed.

(** What does not exceed [s] does not exceed a vector at the place of [s]. *)
Lemma exceeds1_same_place w s s' :
  same_place s s' -> exceeds1 w s = false -> exceeds1 w s' = false.
Proof.
  intros [Hx Hy] Hw. destruct (exceeds1 w s') eqn:E; [|reflexivity].
  enough (exceeds1 w s = true) by congruence. clear Hw.
  unfold exceeds1 in *. order_solve.
Qed.
Lemma exceeds2_same_place w s s' :
  same_place s s' -> exceeds2 w s = false -> exceeds2 w s' = false.
Proof.
  intros [Hx Hy] Hw. destruct (exceeds2 w s') eqn:E; [|reflexivity].
  enough (exceeds2 w s = true) by congruence. clear Hw.
  unfold exceeds2 in *. order_solve.
Qed.
Lemma exceeds3_same_place w s s' :
  same_place s s' -> exceeds3 w s = false -> exceeds3 w s' = false.
Proof.
  intros [Hx Hy] Hw. destruct (exceeds3 w s') eqn:E; [|reflexivity].
  enough (exceeds3 w s = true) by congruence. clear Hw.
  unfold exceeds3 in *. order_solve.
Qed.

Ltac scan_simpl :=
  cbn [support scan_index lookup list_lookup default from_option
       insert list_insert];
  unfold Datatypes.id.

Lemma scan_vertex_inv vertices b_u0 b_u1 origin i1 seen (s : Scan F) i v :
  vertices !! i = Some v ->
  scan_inv vertices b_u0 b_u1 origin i1 seen s ->
  scan_inv vertices b_u0 b_u1 origin i1 (fun j => seen j \/ j = i)
    (scan_vertex b_u0 b_u1 origin s i v).
Proof.
  intros Ev (k1 & k2 & k3 & s0 & s1 & s2 & s3 & Hidx & Hsup & S1 & S2 & S3
             & Hall).
  destruct s as [idx sp]. cbn [scan_index support] in Hidx, Hsup. subst idx sp.
  unfold scan_vertex. cbv zeta.
  change (mkVector2 (dot b_u0 (subVectors v origin))
            (dot b_u1 (subVectors v origin)))
    with (projection b_u0 b_u1 origin v).
  set (proj := projection b_u0 b_u1 origin) in *.
  set (p := proj v) in *.
  unfold sup. scan_simpl.
  change (flt (x s1) (x p) || (feq (x p) (x s1) && flt (y s1) (y p)))
    with (exceeds1 p s1).
  destruct (exceeds1 p s1) eqn:T1; scan_simpl;
  change (flt (y s2) (y p) || (feq (y p) (y s2) && flt (x p) (x s2)))
    with (exceeds2 p s2);
  destruct (exceeds2 p s2) eqn:T2; scan_simpl;
  change (flt (x p) (x s3) || (feq (x p) (x s3) && flt (y p) (y s3)))
    with (exceeds3 p s3);
  destruct (exceeds3 p s3) eqn:T3; scan_simpl;
  (eexists _, _, _, _, _, _, _;
   split; [reflexivity|]; split; [reflexivity|];
   split; [first [exact S1 | left; exists v; split; [exact Ev | reflexivity]]|];
   split; [first [exact S2 | left; exists v; split; [exact Ev | reflexivity]]|];
   split; [first [exact S3 | left; exists v; split; [exact Ev | reflexivity]]|];
   intros j w [Hj | ->] Ew;
   [ destruct (Hall j w Hj Ew) as (A1 & A2 & A3) |
     assert (w = v) by congruence; subst w; fold p ];
   (split; [|split]);
   first [ assumption
         | apply exceeds1_irrefl | apply exceeds2_irrefl | apply exceeds3_irrefl
         | eapply exceeds1_new; eassumption
         | eapply exceeds2_new; eassumption
         | eapply exceeds3_new; eassumption ]).
Qed.

Lemma scan_inv_weaken vertices b_u0 b_u1 origin i1
    (seen seen' : nat -> Prop) (s : Scan F) :
  (forall j, seen' j -> seen j) ->
  scan_inv vertices b_u0 b_u1 origin i1 seen s ->
  scan_inv vertices b_u0 b_u1 origin i1 seen' s.
Proof.
  intros Hsub (k1 & k2 & k3 & s0 & s1 & s2 & s3 & Hidx & Hsup & S1 & S2 & S3
               & Hall).
  exists k1, k2, k3, s0, s1, s2, s3. repeat (split; [assumption|]).
  intros j v Hj. apply Hall, Hsub, Hj.
Qed.

Lemma scan_from_inv vertices b_u0 b_u1 origin i1 rest :
  forall i (seen : nat -> Prop) (s : Scan F),
    (forall k v, rest !! k = Some v -> vertices !! (i + k)%nat = Some v) ->
    scan_inv vertices b_u0 b_u1 origin i1 seen s ->
    scan_inv vertices b_u0 b_u1 origin i1
      (fun j => seen j \/ (i <= j < i + length rest)%nat)
      (scan_from b_u0 b_u1 origin s i rest).
Proof.
  induction rest as [|v rest IH]; intros i seen s Hrest Hs; simpl.
  - apply (scan_inv_weaken _ _ _ _ _ seen); [|exact Hs].
    intros j [Hj|Hj]; [assumption|simpl in Hj; lia].
  - apply (scan_inv_weaken _ _ _ _ _
             (fun j => (seen j \/ j = i) \/ (S i <= j < S i + length rest)%nat));
      [|apply IH].
    + intros j [Hj|Hj]; [left; left; exact Hj|]. simpl in Hj.
      destruct (decide (j = i)) as [->|Hne]; [left; right; reflexivity|].
      right. lia.
    + intros k w Hk. replace (S i + k)%nat with (i + S k)%nat by lia.
      apply Hrest. exact Hk.
    + apply scan_vertex_inv; [|exact Hs].
      replace i with (i + 0)%nat by lia. apply Hrest. reflexivity.
Qed.

(** [smallestBox] under the laws of the comparisons: the box it returns,
    what its supports hold, and that no vertex has a projection that
    exceeds them; and, when the projection of [vertex[i1]] itself compares
    equal to zero, that none exceeds the projections of the vertices that
    the indices name. *)
Lemma smallestBox_supports_laws i0 i1 vertices vi0 vi1 :
  vertices !! i0 = Some vi0 -> vertices !! i1 = Some vi1 ->
  exists k1 k2 k3 v1 v2 v3 s1 s2 s3,
    let b_u0 := subVectors vi1 vi0 in
    let b_u1 := mkVector2 (fneg (y b_u0)) (x b_u0) in
    let proj := projection b_u0 b_u1 vi1 in
    smallestBox i0 i1 vertices
      = Ok (mkBox b_u0 (Own b_u1) [i1; k1; k2; k3] (dot b_u0 b_u0)
              (fdiv (fmul (fsub (x s1) (x s3)) (y s2)) (dot b_u0 b_u0))) /\
    vertices !! k1 = Some v1 /\ vertices !! k2 = Some v2 /\
    vertices !! k3 = Some v3 /\
    (s1 = proj v1 \/ k1 = i1 /\ s1 = mkVector2 (fneg f0) (fneg f0)) /\
    (s2 = proj v2 \/ k2 = i1 /\ s2 = mkVector2 (fneg f0) (fneg f0)) /\
    (s3 = proj v3 \/ k3 = i1 /\ s3 = mkVector2 f0 f0) /\
    (forall j v, vertices !! j = Some v ->
       exceeds1 (proj v) s1 = false /\ exceeds2 (proj v) s2 = false /\
       exceeds3 (proj v) s3 = false) /\
    (same_place (proj vi1) (mkVector2 f0 f0) ->
     forall j v, vertices !! j = Some v ->
       exceeds1 (proj v) (proj v1) = false /\
       exceeds2 (proj v) (proj v2) = false /\
       exceeds3 (proj v) (proj v3) = false).
Proof.
  intros E0 E1. cbv zeta.
  set (b_u0 := subVectors vi1 vi0).
  set (b_u1 := mkVector2 (fneg (y b_u0)) (x b_u0)).
  set (proj := projection b_u0 b_u1 vi1).
  set (st := mkScan [i1; i1; i1; i1]
               [mkVector2 f0 f0; mkVector2 (fneg f0) (fneg f0);
                mkVector2 (fneg f0) (fneg f0); mkVector2 f0 f0]).
  assert (Hs0 : scan_inv vertices b_u0 b_u1 vi1 i1 (fun _ => False) st).
  { exists i1, i1, i1, (mkVector2 f0 f0), (mkVector2 (fneg f0) (fneg f0)),
      (mkVector2 (fneg f0) (fneg f0)), (mkVector2 f0 f0).
    split; [reflexivity|]. split; [reflexivity|].
    split; [right; auto|]. split; [right; auto|]. split; [right; auto|].
    intros j v []. }
  pose proof (scan_from_inv vertices b_u0 b_u1 vi1 i1 vertices 0
                (fun _ => False) st) as Hscan.
  destruct Hscan
    as (k1 & k2 & k3 & t0 & s1 & s2 & s3 & Hidx & Hsup & S1 & S2 & S3 & Hall);
    [intros k v Hk; exact Hk | exact Hs0 |].
  fold proj in S1, S2, S3, Hall.
  assert (Hv : forall init k s,
            support_of vertices proj i1 init k s ->
            exists v, vertices !! k = Some v /\
                      (s = proj v \/ k = i1 /\ s = init)).
  { intros init k s [(v & Ev & ->)|[-> ->]]; eauto 6. }
  destruct (Hv _ _ _ S1) as (v1 & L1 & P1).
  destruct (Hv _ _ _ S2) as (v2 & L2 & P2).
  destruct (Hv _ _ _ S3) as (v3 & L3 & P3).
  exists k1, k2, k3, v1, v2, v3, s1, s2, s3.
  split.
  { unfold smallestBox. rewrite E1, E0. cbv zeta. fold b_u0. fold b_u1. fold st.
    unfold sup. rewrite Hidx, Hsup. reflexivity. }
  do 6 (split; [assumption|]).
  assert (Hseen : forall j v, vertices !! j = Some v ->
            exceeds1 (proj v) s1 = false /\ exceeds2 (proj v) s2 = false /\
            exceeds3 (proj v) s3 = false).
  { intros j v Ev. apply (Hall j v); [|exact Ev].
    right. apply lookup_lt_Some in Ev. lia. }
  split; [exact Hseen|].
  intros Hz j v Ev. destruct (Hseen j v Ev) as (A1 & A2 & A3).
  assert (Hneg : same_place (mkVector2 (fneg f0) (fneg f0)) (proj vi1)).
  { destruct Hz as [Hx Hy]. cbn [x y] in Hx, Hy.
    split; cbn [x y];
      (eapply (feq_trans F laws);
       [apply (feq_neg_zero F laws) | apply (feq_sym F laws); assumption]). }
  assert (Hpos : same_place (mkVector2 f0 f0) (proj vi1))
    by (apply same_place_sym; exact Hz).
  split; [|split].
  - destruct P1 as [<-|[-> ->]]; [exact A1|].
    assert (v1 = vi1) by congruence. subst v1.
    exact (exceeds1_same_place _ _ _ Hneg A1).
  - destruct P2 as [<-|[-> ->]]; [exact A2|].
    assert (v2 = vi1) by congruence. subst v2.
    exact (exceeds2_same_place _ _ _ Hneg A2).
  - destruct P3 as [<-|[-> ->]]; [exact A3|].
    assert (v3 = vi1) by congruence. subst v3.
    exact (exceeds3_same_place _ _ _ Hpos A3).
Qed.
(** C4, as amended. For every number model: of the box that [smallestBox]
    returns, [u[1]] is [u[0]] turned by a quarter turn, [(-u0.y, u0.x)];
    and the invariant of the caliper box holds of the box that
    [updateSupport] leaves when it returns [true]: [u[1]] is
    [(-u0.y, u0.x)], and [area] is the area that the current indices and
    axes give. *)
Theorem box_invariant_established
    (vertices : list (Vector2 F)) (h : Heap F) (b : Box F) :
  ((exists i0 i1, smallestBox i0 i1 vertices = Ok b) ->
   u1_of h b = mkVector2 (fneg (y (u0 b))) (x (u0 b))) /\
  ((exists angleInfo angleNum sort visited b0 h0 visited',
      updateSupport angleInfo angleNum sort vertices visited b0 h0
        = (h, Ok (true, b, visited'))) ->
   box_invariant vertices h b).
Proof.
  split.
  - intros (i0 & i1 & Eb).
    destruct (vertices !! i1) as [vi1|] eqn:E1;
      [|unfold smallestBox in Eb; rewrite E1 in Eb; discriminate].
    destruct (vertices !! i0) as [vi0|] eqn:E0;
      [|unfold smallestBox in Eb; rewrite E1, E0 in Eb; discriminate].
    destruct (smallestBox_run i0 i1 vertices vi0 vi1 E0 E1)
      as (b' & Eb' & _ & _ & Hu1 & _).
    rewrite Eb in Eb'. injection Eb' as <-.
    unfold u1_of. rewrite Hu1. reflexivity.
  - intros (angleInfo & angleNum & sort & visited & b0 & h0 & visited' & Erun).
    eapply updateSupport_true_invariant. exact Erun.
Qed.

End Supports.

(** ** The order of binary64 numbers *)

Lemma SFcompare_key (f1 f2 : spec_float) :
  match SFcompare f1 f2 with
  | Some Lt => exists a b, float_key f1 = Some a /\ float_key f2 = Some b /\ key_lt a b
  | Some Eq => exists a, float_key f1 = Some a /\ float_key f2 = Some a
  | Some Gt => exists a b, float_key f1 = Some a /\ float_key f2 = Some b /\ key_lt b a
  | None => float_key f1 = None \/ float_key f2 = None
  end.
Proof.
  destruct f1 as [s1|s1| |s1 m1 e1], f2 as [s2|s2| |s2 m2 e2];
    try destruct s1; try destruct s2; cbn [SFcompare float_key];
    try (left; reflexivity); try (right; reflexivity);
    try (eexists; split; reflexivity);
    try (eexists _, _; split; [reflexivity|]; split; [reflexivity|];
         unfold key_lt; cbn [fst snd]; lia).
  - destruct (Z.compare_spec e1 e2) as [->|Hlt|Hgt].
    + change (PosDef.Pos.compare_cont Eq m1 m2) with (Pos.compare m1 m2).
      destruct (Pos.compare_spec m1 m2) as [->|Hm|Hm]; cbn [CompOpp].
      * eexists; split; reflexivity.
      * eexists _, _; split; [reflexivity|]; split; [reflexivity|].
        unfold key_lt; cbn [fst snd]. lia.
      * eexists _, _; split; [reflexivity|]; split; [reflexivity|].
        unfold key_lt; cbn [fst snd]. lia.
    + eexists _, _; split; [reflexivity|]; split; [reflexivity|].
      unfold key_lt; cbn [fst snd]. lia.
    + eexists _, _; split; [reflexivity|]; split; [reflexivity|].
      unfold key_lt; cbn [fst snd]. lia.
  - destruct (Z.compare_spec e1 e2) as [->|Hlt|Hgt].
    + change (PosDef.Pos.compare_cont Eq m1 m2) with (Pos.compare m1 m2).
      destruct (Pos.compare_spec m1 m2) as [->|Hm|Hm].
      * eexists; split; reflexivity.
      * eexists _, _; split; [reflexivity|]; split; [reflexivity|].
        unfold key_lt; cbn [fst snd]. lia.
      * eexists _, _; split; [reflexivity|]; split; [reflexivity|].
        unfold key_lt; cbn [fst snd]. lia.
    + eexists _, _; split; [reflexivity|]; split; [reflexivity|].
      unfold key_lt; cbn [fst snd]. lia.
    + eexists _, _; split; [reflexivity|]; split; [reflexivity|].
      unfold key_lt; cbn [fst snd]. lia.
Qed.

Lemma key_lt_irrefl a : ~ key_lt a a.
Proof. unfold key_lt. lia. Qed.

Lemma key_lt_trans a b c : key_lt a b -> key_lt b c -> key_lt a c.
Proof. unfold key_lt. lia. Qed.

Lemma float_ltb_key (a b : float) :
  PrimFloat.ltb a b = true <->
  exists ka kb, float_key (Prim2SF a) = Some ka /\
                float_key (Prim2SF b) = Some kb /\ key_lt ka kb.
Proof.
  rewrite FloatAxioms.ltb_spec. unfold SFltb.
  pose proof (SFcompare_key (Prim2SF a) (Prim2SF b)) as H.
  destruct (SFcompare (Prim2SF a) (Prim2SF b)) as [[| |]|].
  - split; [discriminate|]. destruct H as (k & E1 & E2).
    intros (ka & kb & Ea & Eb & Hlt). exfalso.
    rewrite E1 in Ea. rewrite E2 in Eb. injection Ea as <-. injection Eb as <-.
    exact (key_lt_irrefl _ Hlt).
  - split; [intros _; exact H | reflexivity].
  - split; [discriminate|]. destruct H as (k1 & k2 & E1 & E2 & Hgt).
    intros (ka & kb & Ea & Eb & Hlt). exfalso.
    rewrite E1 in Ea. rewrite E2 in Eb. injection Ea as <-. injection Eb as <-.
    exact (key_lt_irrefl _ (key_lt_trans _ _ _ Hlt Hgt)).
  - split; [discriminate|].
    intros (ka & kb & Ea & Eb & _). destruct H as [H|H]; congruence.
Qed.

Lemma float_eqb_key (a b : float) :
  PrimFloat.eqb a b = true <->
  exists k, float_key (Prim2SF a) = Some k /\ float_key (Prim2SF b) = Some k.
Proof.
  rewrite FloatAxioms.eqb_spec. unfold SFeqb.
  pose proof (SFcompare_key (Prim2SF a) (Prim2SF b)) as H.
  destruct (SFcompare (Prim2SF a) (Prim2SF b)) as [[| |]|].
  - split; [intros _; exact H | reflexivity].
  - split; [discriminate|]. destruct H as (k1 & k2 & E1 & E2 & Hlt).
    intros (k & Ea & Eb). exfalso.
    rewrite E1 in Ea. rewrite E2 in Eb. injection Ea as <-. injection Eb as <-.
    exact (key_lt_irrefl _ Hlt).
  - split; [discriminate|]. destruct H as (k1 & k2 & E1 & E2 & Hlt).
    intros (k & Ea & Eb). exfalso.
    rewrite E1 in Ea. rewrite E2 in Eb. injection Ea as <-. injection Eb as <-.
    exact (key_lt_irrefl _ Hlt).
  - split; [discriminate|].
    intros (k & Ea & Eb). destruct H as [H|H]; congruence.
Qed.

Lemma float_leb_key (a b : float) :
  PrimFloat.leb a b = true <->
  exists ka kb, float_key (Prim2SF a) = Some ka /\
                float_key (Prim2SF b) = Some kb /\ (key_lt ka kb \/ ka = kb).
Proof.
  rewrite FloatAxioms.leb_spec. unfold SFleb.
  pose proof (SFcompare_key (Prim2SF a) (Prim2SF b)) as H.
  destruct (SFcompare (Prim2SF a) (Prim2SF b)) as [[| |]|].
  - split; [|reflexivity]. intros _. destruct H as (k & E1 & E2). eauto 6.
  - split; [|reflexivity]. intros _.
    destruct H as (k1 & k2 & E1 & E2 & Hlt). eauto 6.
  - split; [discriminate|]. destruct H as (k1 & k2 & E1 & E2 & Hgt).
    intros (ka & kb & Ea & Eb & Hle). exfalso.
    rewrite E1 in Ea. rewrite E2 in Eb. injection Ea as <-. injection Eb as <-.
    destruct Hle as [Hlt| ->].
    + exact (key_lt_irrefl _ (key_lt_trans _ _ _ Hlt Hgt)).
    + exact (key_lt_irrefl _ Hgt).
  - split; [discriminate|].
    intros (ka & kb & Ea & Eb & _). destruct H as [H|H]; congruence.
Qed.

(** Binary64 numbers, with NaN, the infinities and the two zeros, satisfy
    the laws. *)
Lemma float_order_laws : order_laws float.
Proof.
  split; cbn [flt feq fle fneg f0 float_Number].
  - intros a. apply not_true_is_false. rewrite float_ltb_key.
    intros (ka & kb & Ea & Eb & Hlt). rewrite Ea in Eb. injection Eb as <-.
    exact (key_lt_irrefl _ Hlt).
  - intros a b c. rewrite !float_ltb_key.
    intros (ka & kb & Ea & Eb & H1) (kb' & kc & Eb' & Ec & H2).
    rewrite Eb in Eb'. injection Eb' as <-.
    eauto 6 using key_lt_trans.
  - intros a b c. rewrite !float_ltb_key, float_eqb_key.
    intros (ka & kb & Ea & Eb & H1) (k & Eb' & Ec).
    rewrite Eb in Eb'. injection Eb' as <-. eauto 6.
  - intros a b c. rewrite !float_ltb_key, float_eqb_key.
    intros (k & Ea & Eb) (kb & kc & Eb' & Ec & H2).
    rewrite Eb in Eb'. injection Eb' as <-. eauto 6.
  - intros a b c. rewrite !float_eqb_key.
    intros (k & Ea & Eb) (k' & Eb' & Ec).
    rewrite Eb in Eb'. injection Eb' as <-. eauto.
  - intros a b. rewrite !float_eqb_key. intros (k & Ea & Eb). eauto.
  - intros a b c. rewrite !float_leb_key.
    intros (ka & kb & Ea & Eb & H1) (kb' & kc & Eb' & Ec & H2).
    rewrite Eb in Eb'. injection Eb' as <-.
    exists ka, kc. split; [assumption|]. split; [assumption|].
    destruct H1 as [H1| ->]; destruct H2 as [H2| ->];
      eauto using key_lt_trans.
  - reflexivity.
Qed.

(** ** Binary64 arithmetic at the origin of the scan *)

Lemma SFsub_self (f : spec_float) :
  sf_zero (SF64sub f f) = sf_finite f /\
  sf_nan (SF64sub f f) = negb (sf_finite f).
Proof.
  destruct f as [s|s| |s m e]; try destruct s; try (split; reflexivity).
  all: unfold SF64sub, SFsub; rewrite Z.sub_diag; split; reflexivity.
Qed.

Lemma SFmul_null (f z : spec_float) :
  sf_null z ->
  sf_zero (SF64mul f z) = sf_finite f && sf_zero z /\
  sf_nan (SF64mul f z) = negb (sf_finite f && sf_zero z).
Proof.
  intros [Hz|Hz]; destruct z as [sz|sz| |sz mz ez]; try discriminate Hz;
    destruct f as [s|s| |s m e]; split; reflexivity.
Qed.

Lemma SFadd_null (a b : spec_float) :
  sf_null a -> sf_null b ->
  sf_zero (SF64add a b) = sf_zero a && sf_zero b /\
  sf_nan (SF64add a b) = negb (sf_zero a && sf_zero b).
Proof.
  intros [Ha|Ha] [Hb|Hb];
    destruct a as [sa|sa| |sa ma ea]; try discriminate Ha;
    destruct b as [sb|sb| |sb mb eb]; try discriminate Hb;
    try destruct sa; try destruct sb; split; reflexivity.
Qed.

Lemma SFopp_finite (f : spec_float) : sf_finite (SFopp f) = sf_finite f.
Proof. destruct f; reflexivity. Qed.

Lemma null_of_zero f : sf_zero f = negb (sf_nan f) -> sf_null f.
Proof. unfold sf_null. destruct (sf_zero f), (sf_nan f); auto; discriminate. Qed.

Lemma float_zero_feq (a : float) :
  sf_zero (Prim2SF a) = true -> PrimFloat.eqb a 0 = true.
Proof.
  intros Ha. apply float_eqb_key. exists (0, 0, 0)%Z.
  split; [|reflexivity].
  destruct (Prim2SF a); try discriminate Ha. reflexivity.
Qed.

Lemma float_nan_compares (a b : float) :
  sf_nan (Prim2SF a) = true ->
  PrimFloat.ltb a b = false /\ PrimFloat.ltb b a = false /\
  PrimFloat.eqb b a = false.
Proof.
  intros Ha.
  assert (Hk : float_key (Prim2SF a) = None)
    by (destruct (Prim2SF a); try discriminate Ha; reflexivity).
  split; [|split]; apply not_true_is_false.
  - rewrite float_ltb_key. intros (ka & kb & Ea & _). congruence.
  - rewrite float_ltb_key. intros (ka & kb & _ & Eb & _). congruence.
  - rewrite float_eqb_key. intros (k & _ & Eb). congruence.
Qed.

(** In binary64 the projection of the origin of the scan on the axes is a
    zero in both coordinates, or NaN in both. *)
Lemma float_origin_projection (u o : Vector2 float) :
  let p := projection u (mkVector2 (fneg (y u)) (x u)) o o in
  sf_zero (Prim2SF (x p)) = true /\ sf_zero (Prim2SF (y p)) = true \/
  sf_nan (Prim2SF (x p)) = true /\ sf_nan (Prim2SF (y p)) = true.
Proof.
  cbv zeta. unfold projection, dot, subVectors.
  cbn [x y fadd fsub fmul fneg float_Number].
  rewrite !add_spec, !mul_spec, !sub_spec, opp_spec.
  destruct (SFsub_self (Prim2SF (x o))) as [Zx Nx].
  destruct (SFsub_self (Prim2SF (y o))) as [Zy Ny].
  set (dx := SF64sub (Prim2SF (x o)) (Prim2SF (x o))) in *.
  set (dy := SF64sub (Prim2SF (y o)) (Prim2SF (y o))) in *.
  assert (Hdx : sf_null dx)
    by (apply null_of_zero; rewrite Zx, Nx, negb_involutive; reflexivity).
  assert (Hdy : sf_null dy)
    by (apply null_of_zero; rewrite Zy, Ny, negb_involutive; reflexivity).
  destruct (SFmul_null (Prim2SF (x u)) dx Hdx) as [Z1 N1].
  destruct (SFmul_null (Prim2SF (y u)) dy Hdy) as [Z2 N2].
  destruct (SFmul_null (SFopp (Prim2SF (y u))) dx Hdx) as [Z3 N3].
  destruct (SFmul_null (Prim2SF (x u)) dy Hdy) as [Z4 N4].
  rewrite SFopp_finite in Z3, N3.
  set (m1 := SF64mul (Prim2SF (x u)) dx) in *.
  set (m2 := SF64mul (Prim2SF (y u)) dy) in *.
  set (m3 := SF64mul (SFopp (Prim2SF (y u))) dx) in *.
  set (m4 := SF64mul (Prim2SF (x u)) dy) in *.
  assert (H1 : sf_null m1)
    by (apply null_of_zero; rewrite Z1, N1, negb_involutive; reflexivity).
  assert (H2 : sf_null m2)
    by (apply null_of_zero; rewrite Z2, N2, negb_involutive; reflexivity).
  assert (H3 : sf_null m3)
    by (apply null_of_zero; rewrite Z3, N3, negb_involutive; reflexivity).
  assert (H4 : sf_null m4)
    by (apply null_of_zero; rewrite Z4, N4, negb_involutive; reflexivity).
  destruct (SFadd_null m1 m2 H1 H2) as [-> ->].
  destruct (SFadd_null m3 m4 H3 H4) as [-> ->].
  rewrite Z1, Z2, Z3, Z4, Zx, Zy.
  destruct (sf_finite (Prim2SF (x u))), (sf_finite (Prim2SF (y u))),
    (sf_finite (Prim2SF (x o))), (sf_finite (Prim2SF (y o))); cbn; auto.
Qed.

(** C6. In binary64, on a starting edge [(i0, i1)] of vertices of the
    polygon, [smallestBox] returns the box with indices [[i1; k1; k2; k3]]
    where, among the projections of all the vertices on the axes [(u0, u1)]
    from [vertex[i1]], as the code computes and compares them: none exceeds
    the projection of vertex [k1] in the order greater x, then greater y;
    none exceeds the projection of vertex [k2] in the order greater y, then
    smaller x; none exceeds the projection of vertex [k3] in the order
    smaller x, then smaller y; and [area] is
    [(support[1].x - support[3].x) * support[2].y / sqrLenU0], where
    [support[k]] is the projection of vertex [index[k]], or the zero vector
    the scan starts with when no vertex has exceeded it, and then
    [index[k]] is [i1].  [smallestBox] takes no heap: the box is a function
    of [i0], [i1] and the vertices alone. *)
Theorem smallestBox_supports i0 i1 (vertices : list (Vector2 float)) vi0 vi1 :
  vertices !! i0 = Some vi0 -> vertices !! i1 = Some vi1 ->
  exists k1 k2 k3 v1 v2 v3 s1 s2 s3,
    let b_u0 := subVectors vi1 vi0 in
    let b_u1 := mkVector2 (fneg (y b_u0)) (x b_u0) in
    let proj := projection b_u0 b_u1 vi1 in
    smallestBox i0 i1 vertices
      = Ok (mkBox b_u0 (Own b_u1) [i1; k1; k2; k3] (dot b_u0 b_u0)
              (fdiv (fmul (fsub (x s1) (x s3)) (y s2)) (dot b_u0 b_u0))) /\
    vertices !! k1 = Some v1 /\ vertices !! k2 = Some v2 /\
    vertices !! k3 = Some v3 /\
    (s1 = proj v1 \/ k1 = i1 /\ s1 = mkVector2 (fneg f0) (fneg f0)) /\
    (s2 = proj v2 \/ k2 = i1 /\ s2 = mkVector2 (fneg f0) (fneg f0)) /\
    (s3 = proj v3 \/ k3 = i1 /\ s3 = mkVector2 f0 f0) /\
    forall j v, vertices !! j = Some v ->
      exceeds1 (proj v) (proj v1) = false /\
      exceeds2 (proj v) (proj v2) = false /\
      exceeds3 (proj v) (proj v3) = false.
Proof.
  intros E0 E1.
  destruct (smallestBox_supports_laws float_order_laws i0 i1 vertices vi0 vi1
              E0 E1)
    as (k1 & k2 & k3 & v1 & v2 & v3 & s1 & s2 & s3 & Hrun & L1 & L2 & L3
        & P1 & P2 & P3 & Hseen & Hvert).
  cbv zeta in *.
  exists k1, k2, k3, v1, v2, v3, s1, s2, s3.
  do 7 (split; [assumption|]).
  set (b_u0 := subVectors vi1 vi0) in *.
  set (proj := projection b_u0 (mkVector2 (fneg (y b_u0)) (x b_u0)) vi1) in *.
  destruct (float_origin_projection b_u0 vi1) as [[Zx Zy]|[Nx Ny]];
    cbv zeta in *; fold proj in Zx, Zy || fold proj in Nx, Ny.
  - apply Hvert. split; apply float_zero_feq; assumption.
  - intros j v Ev. destruct (Hseen j v Ev) as (A1 & A2 & A3).
    destruct (float_nan_compares (x (proj vi1)) (x (proj v)) Nx)
      as (Xl & Xr & Xe).
    destruct (float_nan_compares (y (proj vi1)) (y (proj v)) Ny)
      as (Yl & Yr & Ye).
    assert (O1 : exceeds1 (proj v) (proj vi1) = false).
    { unfold exceeds1. cbn [flt feq float_Number]. rewrite Xl, Xe.
      reflexivity. }
    assert (O2 : exceeds2 (proj v) (proj vi1) = false).
    { unfold exceeds2. cbn [flt feq float_Number]. rewrite Yl, Ye.
      reflexivity. }
    assert (O3 : exceeds3 (proj v) (proj vi1) = false).
    { unfold exceeds3. cbn [flt feq float_Number]. rewrite Xr, Xe.
      reflexivity. }
    split; [|split].
    + destruct P1 as [<-|[-> _]]; [exact A1|].
      assert (v1 = vi1) by congruence. subst v1. exact O1.
    + destruct P2 as [<-|[-> _]]; [exact A2|].
      assert (v2 = vi1) by congruence. subst v2. exact O2.
    + destruct P3 as [<-|[-> _]]; [exact A3|].
      assert (v3 = vi1) by congruence. subst v3. exact O3.
Qed.

(** ** The program on concrete inputs *)

Lemma float_distinct (a b : float) :
  PrimFloat.eqb a a = true -> PrimFloat.eqb a b = false -> a <> b.
Proof. intros Ha Hb ->. congruence. Qed.

Lemma float_to_Q_minus_two : float_to_Q (-2)%float = (-2 # 1)%Q.
Proof. vm_compute. reflexivity. Qed.

Lemma float_to_Q_zero : float_to_Q 0%float = 0%Q.
Proof. vm_compute. reflexivity. Qed.

Lemma atan2R_down (b : R) : (b < 0)%R -> atan2R b 0 = (- PI / 2)%R.
Proof.
  intros Hb. unfold atan2R.
  destruct (Rlt_dec 0 0) as [H0|_]; [Lra.lra|].
  destruct (Rlt_dec 0 b) as [H1|_]; [Lra.lra|].
  destruct (Rlt_dec b 0) as [_|H2]; [reflexivity | Lra.lra].
Qed.

Lemma angle_value_down : angle_value (atan2 (-2) 0)%float = (- PI / 2)%R.
Proof.
  unfold angle_value. rewrite float_to_Q_minus_two, float_to_Q_zero.
  replace (Q2R 0) with 0%R by (unfold Q2R; simpl; Lra.lra).
  apply atan2R_down. unfold Q2R; simpl. Lra.lra.
Qed.

Lemma square_run :
  (rotatingCaliper (module_start square)).2
    = Ok (mkRect 2 2 (1, 1) (atan2 (-2) 0))%float.
Proof. vm_compute. reflexivity. Qed.

(** C3, as amended. On the square [(0,0), (2,0), (2,2), (0,2)],
    [rotatingCaliper] returns width 2, height 2, center (1, 1) and the angle
    [atan2(-2, 0)], which is [-PI/2]: the box keeps the first baseline,
    the edge from vertex 3 to vertex 0. *)
Theorem square_rectangle :
  (rotatingCaliper (module_start square)).2
    = Ok (mkRect 2 2 (1, 1) (atan2 (-2) 0))%float /\
  angle_value (atan2 (-2) 0)%float = (- PI / 2)%R.
Proof. split; [apply square_run | apply angle_value_down]. Qed.

(** C3 as stated fails: the angle returned on the square is not 0. *)
Lemma square_angle_not_zero :
  ~ exists r, (rotatingCaliper (module_start square)).2 = Ok r /\
      width r = 2%float /\ height r = 2%float /\ center r = (1, 1)%float /\
      angle_value (angle r) = 0%R.
Proof.
  intros (r & Hr & _ & _ & _ & Ha).
  rewrite square_run in Hr. injection Hr as <-. cbn [angle] in Ha.
  rewrite angle_value_down in Ha. pose proof PI_RGT_0. Lra.lra.
Qed.

(** C1 as stated fails: a one-point input and a two-point input are not
    rejected; the call returns a rectangle of area zero. *)
Lemma small_inputs_return_rectangles :
  (length single_point < 3)%nat /\
  (rotatingCaliper (module_start single_point)).2
    = Ok (mkRect 0 0 (5, 7) (atan2 0 0))%float /\
  (length two_points < 3)%nat /\
  (rotatingCaliper (module_start two_points)).2
    = Ok (mkRect 1 0 (0.5, 0) (atan2 0 (-1)))%float.
Proof.
  split; [simpl; lia|]. split; [vm_compute; reflexivity|].
  split; [simpl; lia|]. vm_compute. reflexivity.
Qed.

Lemma small_input_not_validated_witness :
  (length (hull (module_start single_point)) < 3)%nat /\
  exists r, (rotatingCaliper (module_start single_point)).2 = Ok r.
Proof.
  split; [simpl; lia|].
  apply (small_input_not_validated (module_start single_point)).
  simpl. lia.
Defined.

(** C2 at the triangle [(0,0), (1,0), (2,2)], which is counter-clockwise
    and strictly convex: the rectangle returned is the square of side 2
    centred at (3, 1), and the input points (0,0) and (1,0) lie outside it,
    by more than one half. *)
Theorem rectangle_misses_input_points :
  valid_hull slanted_triangle = true /\
  exists r,
    (rotatingCaliper (module_start slanted_triangle)).2 = Ok r /\
    r = (mkRect 2 2 (3, 1) (atan2 0 1))%float /\
    contains r 0.5%float (0, 0)%float = false /\
    contains r 0.5%float (1, 0)%float = false.
Proof.
  split; [vm_compute; reflexivity|].
  eexists. split; [vm_compute; reflexivity|].
  split; [reflexivity|]. split; vm_compute; reflexivity.
Qed.

(** C7 at the second round on the triangle [(0,0), (1,0), (2,2)]:
    [computeAngles] writes two candidates, in slots 0 and 1, and
    [sortAngles] returns [[2; 0; 1]]: slot 2, which holds a candidate of the
    round before, comes first. *)
Theorem sortAngles_returns_stale_slot :
  match after_rounds 1 slanted_triangle with
  | (h, Ok (vertices, l)) =>
      match computeAngles vertices (box l) (angleInfo l) h with
      | (_, Ok (_, _, angleInfo', angleNum)) =>
          angleNum = 2%nat /\
          candidate_slots angleNum = [0; 1]%nat /\
          sortAngles angleInfo' angleNum = [2; 0; 1]%nat
      | _ => False
      end
  | _ => False
  end.
Proof. vm_compute. repeat split. Qed.

(** C4 as stated fails. On the triangle [(0,0), (4,0), (0,3)] the loop
    ends in its third round, when [updateSupport] returns [false]: the box
    it leaves has the indices moved to [[1; 2; 2; 0]] and the area 12 of the
    indices before the move, while the area of the current indices and axes
    is 0. *)
Lemma box_invariant_broken_on_false :
  match after_rounds 3 right_triangle with
  | (h, Ok (vertices, l)) =>
      index (box l) = [1; 2; 2; 0]%nat /\
      area (box l) = 12%float /\
      recomputed_area vertices (box l) (u1_of h (box l)) = Some 0%float /\
      ~ box_invariant vertices h (box l)
  | _ => False
  end.
Proof.
  vm_compute. repeat split. intros [_ E].
  apply (f_equal (default 1%float)) in E. simpl in E.
  revert E. apply float_distinct; reflexivity.
Qed.

(** The invariant also fails after [computeAngles], which negates the
    axes of the box in place: in the second round on the triangle
    [(0,0), (1,0), (2,2)] only [u[1]] is negated, and the box is left with
    [u[0] = (1, 2)] and [u[1] = (2, -1)]. *)
Lemma computeAngles_negates_in_place :
  match after_rounds 1 slanted_triangle with
  | (h, Ok (vertices, l)) =>
      match computeAngles vertices (box l) (angleInfo l) h with
      | (h', Ok (_, b, _, _)) =>
          u0 b = (mkVector2 1 2)%float /\
          u1_of h' b = (mkVector2 2 (-1))%float /\
          ~ box_invariant vertices h' b
      | _ => False
      end
  | _ => False
  end.
Proof.
  vm_compute. repeat split. intros [E _].
  apply (f_equal x) in E. simpl in E.
  revert E. apply float_distinct; reflexivity.
Qed.

(** And in binary64 the area that [smallestBox] computes, from the
    projections of the supports, is not the area that the indices and axes
    give by the formula of [updateSupport]: on a counter-clockwise triangle
    with integer coordinates the two differ in the last place. *)
Lemma smallestBox_area_rounded :
  valid_hull wide_triangle = true /\
  match smallestBox 2 0 (vertices_of wide_triangle) with
  | Ok b =>
      u1_of (module_start wide_triangle) b
        = mkVector2 (fneg (y (u0 b))) (x (u0 b)) /\
      area b = 1034117642490209%float /\
      recomputed_area (vertices_of wide_triangle) b
        (u1_of (module_start wide_triangle) b)
        = Some 1034117642490209.25%float /\
      ~ box_invariant (vertices_of wide_triangle)
          (module_start wide_triangle) b
  | _ => False
  end.
Proof.
  split; [vm_compute; reflexivity|].
  vm_compute. repeat split. intros [_ E].
  apply (f_equal (default 1%float)) in E. simpl in E.
  revert E. apply float_distinct; reflexivity.
Qed.

(** C4 as stated fails at each of the three places it names: after
    [updateSupport], when it returns [false]; after [computeAngles]; and,
    for the area in binary64, after [smallestBox]. *)
Lemma box_invariant_not_kept :
  (exists h vertices l,
     after_rounds 3 right_triangle = (h, Ok (vertices, l)) /\
     ~ box_invariant vertices h (box l)) /\
  (exists h vertices l h' found b angleInfo' angleNum,
     after_rounds 1 slanted_triangle = (h, Ok (vertices, l)) /\
     computeAngles vertices (box l) (angleInfo l) h
       = (h', Ok (found, b, angleInfo', angleNum)) /\
     ~ box_invariant vertices h' b) /\
  (exists b,
     valid_hull wide_triangle = true /\
     smallestBox 2 0 (vertices_of wide_triangle) = Ok b /\
     ~ box_invariant (vertices_of wide_triangle)
         (module_start wide_triangle) b).
Proof.
  split; [|split].
  - pose proof box_invariant_broken_on_false as H.
    destruct (after_rounds 3 right_triangle) as [h [[vertices l]|]];
      [|contradiction].
    exists h, vertices, l. split; [reflexivity | apply H].
  - pose proof computeAngles_negates_in_place as H.
    destruct (after_rounds 1 slanted_triangle) as [h [[vertices l]|]];
      [|contradiction].
    destruct (computeAngles vertices (box l) (angleInfo l) h)
      as [h' [[[[found b] angleInfo'] angleNum]|]] eqn:E; [|contradiction].
    exists h, vertices, l, h', found, b, angleInfo', angleNum.
    split; [reflexivity|]. split; [exact E | apply H].
  - destruct smallestBox_area_rounded as [Hvalid H].
    destruct (smallestBox 2 0 (vertices_of wide_triangle)) as [b|];
      [|contradiction].
    exists b. split; [exact Hvalid|]. split; [reflexivity | apply H].
Qed.

(** C5 as stated fails: [perpE] and [u1] belong to the module, and a call
    leaves in them the last vectors it computed, for the next call to
    find. *)
Lemma module_vectors_outlive_call :
  perpE (rotatingCaliper (module_start right_triangle)).1
    = (mkVector2 3 0)%float /\
  u1 (rotatingCaliper (module_start right_triangle)).1
    = (mkVector2 0 (-4))%float /\
  perpE (rotatingCaliper (module_start right_triangle)).1
    <> perpE (module_start right_triangle) /\
  u1 (rotatingCaliper (module_start right_triangle)).1
    <> u1 (module_start right_triangle).
Proof.
  split; [vm_compute; reflexivity|]. split; [vm_compute; reflexivity|].
  split; vm_compute; intros E.
  - apply (f_equal x) in E. simpl in E.
    revert E. apply float_distinct; reflexivity.
  - apply (f_equal y) in E. simpl in E.
    revert E. apply float_distinct; reflexivity.
Qed.

Lemma outcome_independent_witness :
  hull (module_start right_triangle) = hull (used_module right_triangle) /\
  (rotatingCaliper (module_start right_triangle)).2
    = (rotatingCaliper (used_module right_triangle)).2.
Proof.
  split; [reflexivity|].
  apply (outcome_independent_of_module_vectors
           (module_start right_triangle) (used_module right_triangle)).
  reflexivity.
Defined.

Lemma best_box_along_hull_edge_witness :
  (0 < length (hull (module_start square)))%nat /\
  exists h1 minBox i e h2 r,
    bestBox (module_start square)
      = (h1, Ok (vertices_of (hull (module_start square)), minBox)) /\
    (i < length (hull (module_start square)))%nat /\
    hull_edge (vertices_of (hull (module_start square))) i = Some e /\
    u0 minBox = e /\
    rotatingCaliper (module_start square) = (h2, Ok r) /\
    angle r = atan2 (y e) (x e).
Proof.
  split; [simpl; lia|].
  apply (best_box_along_hull_edge (module_start square)). simpl. lia.
Defined.

Lemma square_support_args_ok :
  support_args_ok square_angleInfo 4 [0; 1; 2; 3]%nat (vertices_of square)
    square_box.
Proof.
  split.
  - intros k Hk. simpl in Hk.
    destruct k as [|[|[|[|k]]]]; [eexists _, _; split; reflexivity.. | lia].
  - split; [reflexivity|]. repeat constructor; simpl; lia.
Defined.

Lemma updateSupport_false_iff_visited_witness :
  support_args_ok square_angleInfo 4 [0; 1; 2; 3]%nat (vertices_of square)
    square_box /\
  exists minAngle b1 parallel h' r b' visited',
    angle_at square_angleInfo [0; 1; 2; 3]%nat 0 (module_start square)
      = (module_start square, Ok minAngle) /\
    advance square_angleInfo [0; 1; 2; 3]%nat (vertices_of square) minAngle
      0 4 square_box 0 (module_start square)
      = (module_start square, Ok (b1, parallel)) /\
    updateSupport square_angleInfo 4 [0; 1; 2; 3]%nat (vertices_of square)
      [true; false; false; false] square_box (module_start square)
      = (h', Ok (r, b', visited')) /\
    (r = false <->
     default false ([true; false; false; false]
                      !! ix b1 (indexOfBox minAngle)) = true) /\
    (r = false ->
     h' = module_start square /\ visited' = [true; false; false; false] /\
     b' = b1 /\
     u0 b' = u0 square_box /\ u1_ref b' = u1_ref square_box /\
     sqrLenU0 b' = sqrLenU0 square_box /\ area b' = area square_box).
Proof.
  split; [exact square_support_args_ok|].
  apply (updateSupport_false_iff_visited square_angleInfo 4 [0; 1; 2; 3]%nat
           (vertices_of square) [true; false; false; false] square_box
           (module_start square)).
  exact square_support_args_ok.
Defined.

Lemma smallestBox_supports_witness :
  vertices_of square !! 3%nat = Some (mkVector2 0 2)%float /\
  vertices_of square !! 0%nat = Some (mkVector2 0 0)%float /\
  exists k1 k2 k3 v1 v2 v3 s1 s2 s3,
    let b_u0 := subVectors (mkVector2 0 0)%float (mkVector2 0 2)%float in
    let b_u1 := mkVector2 (fneg (y b_u0)) (x b_u0) in
    let proj := projection b_u0 b_u1 (mkVector2 0 0)%float in
    smallestBox 3 0 (vertices_of square)
      = Ok (mkBox b_u0 (Own b_u1) [0%nat; k1; k2; k3] (dot b_u0 b_u0)
              (fdiv (fmul (fsub (x s1) (x s3)) (y s2)) (dot b_u0 b_u0))) /\
    vertices_of square !! k1 = Some v1 /\
    vertices_of square !! k2 = Some v2 /\
    vertices_of square !! k3 = Some v3 /\
    (s1 = proj v1 \/ k1 = 0%nat /\ s1 = mkVector2 (fneg f0) (fneg f0)) /\
    (s2 = proj v2 \/ k2 = 0%nat /\ s2 = mkVector2 (fneg f0) (fneg f0)) /\
    (s3 = proj v3 \/ k3 = 0%nat /\ s3 = mkVector2 f0 f0) /\
    forall j v, vertices_of square !! j = Some v ->
      exceeds1 (proj v) (proj v1) = false /\
      exceeds2 (proj v) (proj v2) = false /\
      exceeds3 (proj v) (proj v3) = false.
Proof.
  split; [reflexivity|]. split; [reflexivity|].
  apply (smallestBox_supports 3 0 (vertices_of square)); reflexivity.
Defined.

Lemma box_invariant_established_witness :
  (exists b,
     smallestBox 3 0 (vertices_of square) = Ok b /\
     u1_of (module_start square) b = mkVector2 (fneg (y (u0 b))) (x (u0 b))) /\
  (exists h b visited',
     updateSupport right_triangle_angleInfo 3 [2; 0; 1]%nat
       (vertices_of right_triangle) [true; false; false] right_triangle_box
       (module_start right_triangle)
       = (h, Ok (true, b, visited')) /\
     box_invariant (vertices_of right_triangle) h b).
Proof.
  split.
  - destruct (smallestBox 3 0 (vertices_of square)) as [b|] eqn:E;
      [|vm_compute in E; discriminate].
    exists b. split; [reflexivity|].
    apply (proj1 (box_invariant_established (vertices_of square)
                    (module_start square) b)).
    exists 3%nat, 0%nat. exact E.
  - destruct (updateSupport right_triangle_angleInfo 3 [2; 0; 1]%nat
                (vertices_of right_triangle) [true; false; false]
                right_triangle_box (module_start right_triangle))
      as [h [[[[|] b] visited']|]] eqn:E;
      [|vm_compute in E; discriminate..].
    exists h, b, visited'. split; [reflexivity|].
    apply (proj2 (box_invariant_established (vertices_of right_triangle)
                    h b)).
    exists right_triangle_angleInfo, 3%nat, [2; 0; 1]%nat,
      [true; false; false], right_triangle_box,
      (module_start right_triangle), visited'.
    exact E.
Defined.

(** * The parts of a round *)

Section Rounds.
Context {F : Type} {num : Number F} {math : NumberMath F}.
Implicit Types (h : Heap F) (b : Box F) (vertices : list (Vector2 F)).

(** ** computeAngles, side by side *)

Lemma edge_from_exists vertices j :
  (j < length vertices)%nat -> exists e, edge_from vertices j = Some e.
Proof.
  intros Hj. unfold edge_from.
  destruct (vertex_exists vertices j Hj) as [v0 E0].
  destruct (vertex_exists vertices
              (if Nat.eqb (j + 1) (length vertices) then 0 else j + 1)%nat)
    as [v1 E1].
  { destruct (Nat.eqb_spec (j + 1) (length vertices)); lia. }
  rewrite E1. cbn [mbind option_bind]. rewrite E0. eauto.
Qed.

Lemma edge_from_lt vertices j e :
  edge_from vertices j = Some e -> (j < length vertices)%nat.
Proof.
  unfold edge_from. intros E.
  destruct (vertices !! j) as [v0|] eqn:E0;
    [eapply lookup_lt_Some; exact E0|].
  destruct (vertices !! _) in E; simpl in E; discriminate E.
Qed.

Ltac run_side E1 E0 :=
  cbv [mbind M_bind mret M_ret at_ throw read_ref set_perpE get_perpE
       get_u1 set_u1];
  unfold ix in *; cbn [index];
  rewrite E1, E0; reflexivity.

(** One side of the loop of [computeAngles]: what it leaves of the box, the
    buffer and the module's vectors. *)
Lemma angle_side_run vertices b angleInfo angleNum k0 k1 h :
  box_ok (length vertices) b -> (k0 < 4)%nat ->
  exists e h' b',
    edge_from vertices (ix b k0) = Some e /\
    index b' = index b /\ sqrLenU0 b' = sqrLenU0 b /\ area b' = area b /\
    hull h' = hull h /\
    u0 b' = (if decide (ix b k0 ≠ ix b k1 /\ k0 = 2%nat)
             then negate (u0 b) else u0 b) /\
    u1_of h' b' = (if decide (ix b k0 ≠ ix b k1 /\ k0 = 3%nat)
                   then negate (u1_of h b) else u1_of h b) /\
    angle_side vertices (b, angleInfo, angleNum) k0 k1 h
      = (h', Ok (if decide (ix b k0 ≠ ix b k1)
                 then (b', <[angleNum :=
                           Some (mkAngleInfo
                                   (sinThetaSqr_of e
                                      (if Nat.even k0 then u0 b'
                                       else u1_of h' b')) k0)]> angleInfo,
                       S angleNum)
                 else (b', angleInfo, angleNum))).
Proof.
  intros Hb Hk0. pose proof (box_ok_pos _ _ Hb) as Hn.
  pose proof (ix_lt _ b k0 Hb Hn) as Hj0.
  destruct (edge_from_exists vertices (ix b k0) Hj0) as [e Ee].
  exists e. unfold angle_side.
  destruct (decide (ix b k0 ≠ ix b k1)) as [Hd|Hd].
  2:{ rewrite bool_decide_eq_false_2 by assumption.
      exists h, b. split; [assumption|]. repeat (split; [reflexivity|]).
      split; [rewrite decide_False by tauto; reflexivity|].
      split; [rewrite decide_False by tauto; reflexivity|]. reflexivity. }
  rewrite bool_decide_eq_true_2 by assumption.
  assert (exists vj1 vj0,
            vertices !! (if Nat.eqb (ix b k0 + 1) (length vertices)
                         then 0 else ix b k0 + 1)%nat = Some vj1 /\
            vertices !! ix b k0 = Some vj0 /\ e = sub vj1 vj0)
    as (vj1 & vj0 & E1 & E0 & ->).
  { unfold edge_from in Ee.
    destruct (vertices !! (if Nat.eqb (ix b k0 + 1) (length vertices)
                           then 0 else ix b k0 + 1)%nat) as [vj1|];
      [|discriminate].
    cbn [mbind option_bind] in Ee.
    destruct (vertices !! ix b k0) as [vj0|]; [|discriminate].
    injection Ee as <-. eauto. }
  set (pe := mkVector2 (fneg (y (sub vj1 vj0))) (x (sub vj1 vj0))).
  assert (Hnot2 : forall k, k <> 2%nat -> ~ (ix b k ≠ ix b k1 /\ k = 2%nat))
    by tauto.
  assert (Hnot3 : forall k, k <> 3%nat -> ~ (ix b k ≠ ix b k1 /\ k = 3%nat))
    by tauto.
  destruct k0 as [|[|[|[|k0]]]]; [| | | |lia];
    repeat match goal with
           | |- context [Nat.land ?a ?c] =>
               let r := eval vm_compute in (Nat.land a c) in
               change (Nat.land a c) with r
           end;
    cbn [Nat.eqb negb Nat.even box_u box_u_negate read_ref].
  - (* side 0: d = u[0] *)
    exists (mkHeap pe (u1 h) (hull h)), b.
    split; [exact Ee|]. repeat (split; [reflexivity|]).
    split; [rewrite decide_False by (apply Hnot2; discriminate); reflexivity|].
    split; [rewrite decide_False by (apply Hnot3; discriminate);
            unfold u1_of; destruct (u1_ref b); reflexivity|].
    run_side E1 E0.
  - (* side 1: d = u[1] *)
    exists (mkHeap pe (u1 h) (hull h)), b.
    split; [exact Ee|]. repeat (split; [reflexivity|]).
    split; [rewrite decide_False by (apply Hnot2; discriminate); reflexivity|].
    split; [rewrite decide_False by (apply Hnot3; discriminate);
            unfold u1_of; destruct (u1_ref b); reflexivity|].
    unfold u1_of. destruct (u1_ref b) as [v|]; run_side E1 E0.
  - (* side 2: d = u[0].negate() *)
    exists (mkHeap pe (u1 h) (hull h)),
           (mkBox (negate (u0 b)) (u1_ref b) (index b) (sqrLenU0 b) (area b)).
    split; [exact Ee|]. repeat (split; [reflexivity|]).
    split; [rewrite decide_True by tauto; reflexivity|].
    split; [rewrite decide_False by (apply Hnot3; discriminate);
            unfold u1_of; cbn [u1_ref]; destruct (u1_ref b); reflexivity|].
    run_side E1 E0.
  - (* side 3: d = u[1].negate() *)
    destruct (u1_ref b) as [v|] eqn:Eref.
    + exists (mkHeap pe (u1 h) (hull h)),
             (mkBox (u0 b) (Own (negate v)) (index b) (sqrLenU0 b) (area b)).
      split; [exact Ee|]. repeat (split; [reflexivity|]).
      split; [rewrite decide_False by (apply Hnot2; discriminate); reflexivity|].
      split; [rewrite decide_True by tauto; unfold u1_of; rewrite Eref;
              reflexivity|].
      run_side E1 E0.
    + exists (mkHeap pe (negate (u1 h)) (hull h)), b.
      split; [exact Ee|]. repeat (split; [reflexivity|]).
      split; [rewrite decide_False by (apply Hnot2; discriminate); reflexivity|].
      split; [rewrite decide_True by tauto; unfold u1_of; rewrite Eref;
              reflexivity|].
      unfold u1_of. rewrite Eref. run_side E1 E0.
Qed.

Lemma ix_same_index b b' k : index b' = index b -> ix b' k = ix b k.
Proof. unfold ix. intros ->. reflexivity. Qed.

Lemma decide_and_ne {A} (P : Prop) `{Decision P} (k k' : nat) (a c : A) :
  k <> k' -> (if decide (P /\ k = k') then a else c) = c.
Proof. intros Hk. rewrite decide_False by tauto. reflexivity. Qed.

Lemma decide_and_eq {A} (P : Prop) `{Decision P} (k : nat) (a c : A) :
  (if decide (P /\ k = k) then a else c) = (if decide P then a else c).
Proof.
  destruct (decide P); [rewrite decide_True|rewrite decide_False]; tauto.
Qed.

(** [computeAngles], in full: what it returns, what it writes in the buffer
    and what it does to the axes of the box. *)
Lemma computeAngles_run vertices b angleInfo h :
  box_ok (length vertices) b -> slots_ok angleInfo ->
  exists h' b' angleInfo',
    computeAngles vertices b angleInfo h
      = (h', Ok (Nat.ltb 0 (length (active_sides b)), b', angleInfo',
                 length (active_sides b))) /\
    index b' = index b /\ sqrLenU0 b' = sqrLenU0 b /\ area b' = area b /\
    hull h' = hull h /\
    u0 b' = (if decide (ix b 2 ≠ ix b 3) then negate (u0 b) else u0 b) /\
    u1_of h' b' = (if decide (ix b 3 ≠ ix b 0)
                   then negate (u1_of h b) else u1_of h b) /\
    (forall k side, active_sides b !! k = Some side ->
       exists e, edge_from vertices (ix b side) = Some e /\
         angleInfo' !! k
         = Some (Some (mkAngleInfo
                         (sinThetaSqr_of e
                            (side_direction b (u0 b) (u1_of h b) side))
                         side))) /\
    (forall k, (length (active_sides b) <= k)%nat ->
       angleInfo' !! k = angleInfo !! k).
Proof.
  intros Hb Hs.
  destruct (angle_side_run vertices b angleInfo 0 3 0 h Hb ltac:(lia))
    as (e3 & h1 & b1 & Ee3 & Hi1 & Hq1 & Ha1 & Hh1 & Hu1 & Hv1 & R1).
  pose proof (box_ok_index _ _ _ Hi1 Hb) as Hb1.
  set (st1 := if decide (ix b 3 ≠ ix b 0) then _ else _) in R1.
  assert (Est1 : st1 = (b1, snd (fst st1), snd st1))
    by (unfold st1; destruct (decide (ix b 3 ≠ ix b 0)); reflexivity).
  destruct (angle_side_run vertices b1 (snd (fst st1)) (snd st1) 0 1 h1 Hb1
              ltac:(lia))
    as (e0 & h2 & b2 & Ee0 & Hi2 & Hq2 & Ha2 & Hh2 & Hu2 & Hv2 & R2).
  pose proof (box_ok_index _ _ _ Hi2 Hb1) as Hb2.
  rewrite <- Est1 in R2.
  set (st2 := if decide (ix b1 0 ≠ ix b1 1) then _ else _) in R2.
  assert (Est2 : st2 = (b2, snd (fst st2), snd st2))
    by (unfold st2; destruct (decide (ix b1 0 ≠ ix b1 1)); reflexivity).
  destruct (angle_side_run vertices b2 (snd (fst st2)) (snd st2) 1 2 h2 Hb2
              ltac:(lia))
    as (e1 & h3 & b3 & Ee1 & Hi3 & Hq3 & Ha3 & Hh3 & Hu3 & Hv3 & R3).
  pose proof (box_ok_index _ _ _ Hi3 Hb2) as Hb3.
  rewrite <- Est2 in R3.
  set (st3 := if decide (ix b2 1 ≠ ix b2 2) then _ else _) in R3.
  assert (Est3 : st3 = (b3, snd (fst st3), snd st3))
    by (unfold st3; destruct (decide (ix b2 1 ≠ ix b2 2)); reflexivity).
  destruct (angle_side_run vertices b3 (snd (fst st3)) (snd st3) 2 3 h3 Hb3
              ltac:(lia))
    as (e2 & h4 & b4 & Ee2 & Hi4 & Hq4 & Ha4 & Hh4 & Hu4 & Hv4 & R4).
  rewrite <- Est3 in R4.
  set (st4 := if decide (ix b3 2 ≠ ix b3 3) then _ else _) in R4.
  assert (Est4 : st4 = (b4, snd (fst st4), snd st4))
    by (unfold st4; destruct (decide (ix b3 2 ≠ ix b3 3)); reflexivity).
  assert (Hrun : computeAngles vertices b angleInfo h
                 = (h4, Ok (Nat.ltb 0 (snd st4), b4, snd (fst st4), snd st4))).
  { unfold computeAngles.
    rewrite bind_run, R1, bind_run, R2, bind_run, R3, bind_run, R4, Est4.
    reflexivity. }
  clear R1 R2 R3 R4 Est1 Est2 Est3 Est4.
  exists h4, b4, (snd (fst st4)). revert Hrun.
  subst st1 st2 st3 st4.
  assert (I1 : forall k, ix b1 k = ix b k)
    by (intros k; apply ix_same_index; congruence).
  assert (I2 : forall k, ix b2 k = ix b k)
    by (intros k; apply ix_same_index; congruence).
  assert (I3 : forall k, ix b3 k = ix b k)
    by (intros k; apply ix_same_index; congruence).
  rewrite ?I1, ?I2, ?I3 in *. clear I1 I2 I3.
  rewrite ?decide_and_eq, ?decide_and_ne in * by discriminate.
  destruct angleInfo as [|a0 [|a1 [|a2 [|a3 [|]]]]]; try discriminate Hs.
  unfold active_sides, side_direction.
  cbn [filter list_filter Nat.add Nat.modulo Nat.divmod fst snd Nat.sub].
  destruct (decide (ix b 3 ≠ ix b 0)) as [D3|D3];
    destruct (decide (ix b 0 ≠ ix b 1)) as [D0|D0];
    destruct (decide (ix b 1 ≠ ix b 2)) as [D1|D1];
    destruct (decide (ix b 2 ≠ ix b 3)) as [D2|D2].
  all: cbn [fst snd] in *.
  all: intros Hrun.
  all: split; [exact Hrun|].
  all: split; [congruence|]. all: split; [congruence|].
  all: split; [congruence|]. all: split; [congruence|].
  all: split; [congruence|]. all: split; [congruence|].
  all: split.
  all: try (intros [|[|[|[|k]]]] side Hk; try discriminate Hk;
            injection Hk as <-; cbn [Nat.even] in *;
            eexists; (split; [eassumption|]); cbn; congruence).
  all: try (intros [|[|[|[|k]]]] Hk; cbn [length] in Hk; try lia; reflexivity).
Qed.

(** X1. On a box over the vertices, [computeAngles] raises nothing; the
    count [angleNum.value] it leaves is the number of sides [k0] of the box
    whose support index differs from the next one's; it returns [false]
    exactly when the four support indices are one and the same vertex; and
    it leaves [box.index], [box.sqrLenU0], [box.area] and the caller's array
    as they were. *)
Theorem computeAngles_counts_sides vertices b angleInfo h :
  box_ok (length vertices) b -> slots_ok angleInfo ->
  exists h' found b' angleInfo' angleNum,
    computeAngles vertices b angleInfo h
      = (h', Ok (found, b', angleInfo', angleNum)) /\
    angleNum = length (active_sides b) /\
    (found = false <->
     ix b 0 = ix b 1 /\ ix b 1 = ix b 2 /\ ix b 2 = ix b 3) /\
    index b' = index b /\ sqrLenU0 b' = sqrLenU0 b /\ area b' = area b /\
    hull h' = hull h.
Proof.
  intros Hb Hs.
  destruct (computeAngles_run vertices b angleInfo h Hb Hs)
    as (h' & b' & angleInfo' & Hrun & Hi & Hq & Ha & Hh & _).
  exists h', (Nat.ltb 0 (length (active_sides b))), b', angleInfo',
    (length (active_sides b)).
  split; [exact Hrun|]. split; [reflexivity|].
  split; [|auto]. clear Hrun.
  unfold active_sides.
  cbn [filter list_filter Nat.add Nat.modulo Nat.divmod fst snd Nat.sub].
  destruct (decide (ix b 3 ≠ ix b 0));
    destruct (decide (ix b 0 ≠ ix b 1));
    destruct (decide (ix b 1 ≠ ix b 2));
    destruct (decide (ix b 2 ≠ ix b 3));
    cbn [length Nat.ltb Nat.leb];
    (split; [intros E; first [discriminate E | lia]
            | intros E; first [reflexivity | lia]]).
Qed.

(** X2. [computeAngles] writes its candidates in the first [angleNum.value]
    slots of the buffer, one for each side with differing support indices,
    in the order 3, 0, 1, 2 of its loop: the candidate of side [k0] holds
    [indexOfBox = k0] and the squared sine of the edge that leaves vertex
    [index[k0]] against the direction of that side.  Every other slot of
    the buffer is left as it was: what an earlier round wrote there stays. *)
Theorem computeAngles_writes_first_slots vertices b angleInfo h :
  box_ok (length vertices) b -> slots_ok angleInfo ->
  exists h' found b' angleInfo' angleNum,
    computeAngles vertices b angleInfo h
      = (h', Ok (found, b', angleInfo', angleNum)) /\
    (forall k side, active_sides b !! k = Some side ->
       (k < angleNum)%nat /\
       exists e, edge_from vertices (ix b side) = Some e /\
         angleInfo' !! k
         = Some (Some (mkAngleInfo
                         (sinThetaSqr_of e
                            (side_direction b (u0 b) (u1_of h b) side))
                         side))) /\
    (forall k, (angleNum <= k)%nat -> angleInfo' !! k = angleInfo !! k).
Proof.
  intros Hb Hs.
  destruct (computeAngles_run vertices b angleInfo h Hb Hs)
    as (h' & b' & angleInfo' & Hrun & _ & _ & _ & _ & _ & _ & Hnew & Hold).
  exists h', (Nat.ltb 0 (length (active_sides b))), b', angleInfo',
    (length (active_sides b)).
  split; [exact Hrun|]. split; [|exact Hold].
  intros k side Hk. split; [eapply lookup_lt_Some; exact Hk | auto].
Qed.

(** X3. [computeAngles] changes the axes of the box it is given:
    [box.u[0]] is negated, in place, exactly when [index[2]] differs from
    [index[3]], and [box.u[1]] exactly when [index[3]] differs from
    [index[0]], wherever that vector lives (in the box, or in the module's
    [u1]). *)
Theorem computeAngles_negates_axes vertices b angleInfo h :
  box_ok (length vertices) b -> slots_ok angleInfo ->
  exists h' found b' angleInfo' angleNum,
    computeAngles vertices b angleInfo h
      = (h', Ok (found, b', angleInfo', angleNum)) /\
    u0 b' = (if decide (ix b 2 ≠ ix b 3) then negate (u0 b) else u0 b) /\
    u1_of h' b' = (if decide (ix b 3 ≠ ix b 0)
                   then negate (u1_of h b) else u1_of h b).
Proof.
  intros Hb Hs.
  destruct (computeAngles_run vertices b angleInfo h Hb Hs)
    as (h' & b' & angleInfo' & Hrun & _ & _ & _ & _ & Hu0 & Hu1 & _).
  exists h', (Nat.ltb 0 (length (active_sides b))), b', angleInfo',
    (length (active_sides b)).
  split; [exact Hrun|]. split; assumption.
Qed.

(** ** sortAngles after computeAngles *)

Lemma NoDup_filled_from (angleInfo : list (option (AngleInfo F))) j :
  NoDup (filled_from j angleInfo).
Proof.
  revert j. induction angleInfo as [|[a|] rest IH]; intros j; simpl.
  - constructor.
  - constructor; [|apply IH]. rewrite elem_of_filled_from. lia.
  - apply IH.
Qed.

(** X6. What [sortAngles] orders after [computeAngles] has returned [true]:
    the slots [0 .. angleNum - 1] of the candidates just written, together
    with every slot at or above [angleNum] that an earlier round has written
    in the buffer.  On a buffer with no slot written (the first round), it
    is the candidates of the round, each once. *)
Theorem sortAngles_after_computeAngles vertices b angleInfo h :
  box_ok (length vertices) b -> slots_ok angleInfo ->
  exists h' found b' angleInfo' angleNum,
    computeAngles vertices b angleInfo h
      = (h', Ok (found, b', angleInfo', angleNum)) /\
    (found = true ->
     sortAngles angleInfo' angleNum
       ≡ₚ candidate_slots angleNum
          ++ filter (fun i => (angleNum <= i)%nat) (filled_from 0 angleInfo)) /\
    (found = true -> angleInfo = replicate 4 None ->
     sortAngles angleInfo' angleNum ≡ₚ candidate_slots angleNum).
Proof.
  intros Hb Hs.
  destruct (computeAngles_run vertices b angleInfo h Hb Hs)
    as (h' & b' & angleInfo' & Hrun & _ & _ & _ & _ & _ & _ & Hnew & Hold).
  set (angleNum := length (active_sides b)) in *.
  exists h', (Nat.ltb 0 angleNum), b', angleInfo', angleNum.
  split; [exact Hrun|].
  assert (Hsort : (0 <? angleNum)%nat = true ->
     sortAngles angleInfo' angleNum
       ≡ₚ candidate_slots angleNum
          ++ filter (fun i => (angleNum <= i)%nat) (filled_from 0 angleInfo)).
  { intros Hpos. apply Nat.ltb_lt in Hpos. unfold sortAngles.
    destruct (Nat.eqb_spec angleNum 0) as [E|_]; [lia|].
    rewrite js_sort_perm. apply NoDup_Permutation.
    - apply NoDup_filled_from.
    - apply NoDup_app. split; [apply NoDup_seq|].
      split; [|apply NoDup_filter, NoDup_filled_from].
      intros i Hi Hi'. apply elem_of_seq in Hi.
      apply list_elem_of_filter in Hi' as [Hge _]. lia.
    - intros i. rewrite elem_of_filled, elem_of_app, list_elem_of_filter,
        elem_of_filled. unfold candidate_slots. rewrite elem_of_seq.
      destruct (Nat.lt_ge_cases i angleNum) as [Hlt|Hge].
      + split; [intros _; left; lia|]. intros _.
        destruct (lookup_lt_is_Some_2 (active_sides b) i Hlt) as [side Eside].
        destruct (Hnew i side Eside) as (e & _ & Ei). eauto.
      + rewrite (Hold i Hge). split; [intros; right; auto|].
        intros [?|[_ ?]]; [lia | assumption]. }
  split; [exact Hsort|].
  intros Hpos ->. rewrite (Hsort Hpos).
  cbn [replicate filled_from filter list_filter]. rewrite app_nil_r.
  reflexivity.
Qed.

(** ** updateSupport and the visited vertices *)

Lemma assign_same (a : list bool) i :
  default false (assign a i true !! i) = true.
Proof.
  unfold assign. destruct (Nat.ltb_spec i (length a)) as [Hlt|Hge].
  - rewrite list_lookup_insert_eq by assumption. reflexivity.
  - rewrite lookup_app_r by lia.
    rewrite lookup_app_r by (rewrite length_replicate; lia).
    rewrite length_replicate.
    replace (i - length a - (i - length a))%nat with 0%nat by lia.
    reflexivity.
Qed.

Lemma assign_grows (a : list bool) i j :
  default false (a !! j) = true ->
  default false (assign a i true !! j) = true.
Proof.
  intros Hj. unfold assign.
  assert (Hlt : (j < length a)%nat).
  { destruct (a !! j) eqn:E; [|discriminate].
    eapply lookup_lt_Some; eassumption. }
  destruct (Nat.ltb_spec i (length a)) as [Hi|Hi].
  - destruct (decide (i = j)) as [->|Hne].
    + rewrite list_lookup_insert_eq by assumption. reflexivity.
    + rewrite list_lookup_insert_ne by assumption. exact Hj.
  - rewrite lookup_app_l by assumption. exact Hj.
Qed.

Lemma mark_grows angleInfo sort b rounds :
  forall k visited h h' visited',
    mark angleInfo sort b k rounds visited h = (h', Ok visited') ->
    forall j, default false (visited !! j) = true ->
              default false (visited' !! j) = true.
Proof.
  induction rounds as [|rounds IH]; intros k visited h h' visited'; simpl.
  - intros [= _ <-]. auto.
  - intros Hrun. apply bind_inv in Hrun as (h1 & a & _ & Hrun).
    intros j Hj. eapply IH; [exact Hrun|]. apply assign_grows, Hj.
Qed.

Lemma mark_first angleInfo sort b rounds k visited h h' visited' a :
  angle_at angleInfo sort k h = (h, Ok a) ->
  mark angleInfo sort b k (S rounds) visited h = (h', Ok visited') ->
  default false (visited' !! ix b (indexOfBox a)) = true.
Proof.
  intros Ea. simpl. rewrite bind_run, Ea. intros Hrun.
  eapply mark_grows; [exact Hrun|]. apply assign_same.
Qed.

Lemma advance_counts angleInfo sort vertices minAngle rounds :
  forall k b parallel h h' b1 parallel1,
    advance angleInfo sort vertices minAngle k rounds b parallel h
      = (h', Ok (b1, parallel1)) ->
    (parallel <= parallel1)%nat.
Proof.
  induction rounds as [|rounds IH]; intros k b parallel h h' b1 parallel1; simpl.
  - intros [= _ _ <-]. lia.
  - intros Hrun. apply bind_inv in Hrun as (h1 & a & _ & Hrun).
    destruct (feq _ _); apply IH in Hrun; lia.
Qed.

Lemma advance_first angleInfo sort vertices minAngle rounds b h h' b1 parallel1 :
  angle_at angleInfo sort 0 h = (h, Ok minAngle) ->
  feq (sinThetaSqr minAngle) (sinThetaSqr minAngle) = true ->
  advance angleInfo sort vertices minAngle 0 (S rounds) b 0 h
    = (h', Ok (b1, parallel1)) ->
  (0 < parallel1)%nat.
Proof.
  intros Ea Hrefl. simpl. rewrite bind_run, Ea, Hrefl. intros Hrun.
  apply advance_counts in Hrun. lia.
Qed.

(** X7. [updateSupport] never clears a mark of [visited], and it leaves a
    box over the vertices.  When it returns [true] (with at least one
    candidate, the least of them on a side [indexOfBox < 4] and with a
    squared sine that is a number), the new base vertex [index[0]] was not
    marked before the call and is marked after it, and [u[0]] is the edge of
    the polygon that ends at that vertex: a base edge is never taken
    twice. *)
Theorem updateSupport_marks_new_base
    angleInfo angleNum sort vertices visited b h :
  support_args_ok angleInfo angleNum sort vertices b ->
  (0 < angleNum)%nat ->
  (forall i a, sort !! 0%nat = Some i -> angleInfo !! i = Some (Some a) ->
     (indexOfBox a < 4)%nat /\ feq (sinThetaSqr a) (sinThetaSqr a) = true) ->
  exists h' r b' visited',
    updateSupport angleInfo angleNum sort vertices visited b h
      = (h', Ok (r, b', visited')) /\
    box_ok (length vertices) b' /\
    (forall j, default false (visited !! j) = true ->
               default false (visited' !! j) = true) /\
    (r = true ->
     default false (visited !! ix b' 0) = false /\
     default false (visited' !! ix b' 0) = true /\
     hull_edge vertices (ix b' 0) = Some (u0 b')).
Proof.
  intros Hargs Hnum Hmin. pose proof (box_ok_pos _ _ (proj2 Hargs)) as Hn.
  destruct (updateSupport_run angleInfo angleNum sort vertices visited b h
              Hargs Hn)
    as (minAngle & b1 & parallel & Emin & Eadv & Hb1 & _ & _ & _ & _ & Hrun).
  destruct (default false (visited !! ix b1 (indexOfBox minAngle))) eqn:Ebot.
  - exists h, false, b1, visited. split; [exact Hrun|].
    split; [exact Hb1|]. split; [auto | discriminate].
  - destruct Hrun as (b' & visited' & Hrun & Hb' & _ & Hidx & Hedge & _).
    eexists _, true, b', visited'. split; [exact Hrun|].
    split; [exact Hb'|].
    assert (Hfirst : (indexOfBox minAngle < 4)%nat /\
                     feq (sinThetaSqr minAngle) (sinThetaSqr minAngle) = true).
    { unfold angle_at in Emin.
      destruct (sort !! 0%nat) as [i|] eqn:Ei; [|discriminate].
      destruct (angleInfo !! i) as [[a|]|] eqn:Ea; try discriminate.
      injection Emin as <-. eapply Hmin; eauto. }
    destruct Hfirst as [Hlt Hrefl].
    assert (Ebase : ix b' 0 = ix b1 (indexOfBox minAngle)).
    { unfold ix at 1. rewrite Hidx. cbn [map lookup list_lookup default].
      rewrite Nat.add_0_r, Nat.mod_small by assumption. reflexivity. }
    unfold updateSupport in Hrun.
    rewrite bind_run, Emin, bind_run, Eadv in Hrun. cbv zeta in Hrun.
    rewrite Ebot in Hrun.
    apply bind_inv in Hrun as (h3 & visited3 & E3 & Hrun).
    set (nextIndex := map _ _) in Hrun.
    apply bind_inv in Hrun as (h4 & vj1 & E4 & Hrun).
    apply bind_inv in Hrun as (h5 & vj0 & E5 & Hrun).
    apply bind_inv in Hrun as (h6 & [] & E6 & Hrun).
    apply bind_inv in Hrun as (h7 & v1 & E7 & Hrun).
    apply bind_inv in Hrun as (h8 & v3 & E8 & Hrun).
    apply bind_inv in Hrun as (h9 & v2 & E9 & Hrun).
    apply bind_inv in Hrun as (h10 & v0 & E10 & Hrun).
    apply bind_inv in Hrun as (h11 & b_u1 & E11 & Hrun).
    injection Hrun as _ _ <-.
    pose proof (mark_heap _ _ _ _ _ _ _ _ _ E3) as ->.
    split; [eapply mark_grows; exact E3|].
    intros _. rewrite Ebase. split; [exact Ebot|].
    split; [|rewrite <- Ebase; exact Hedge].
    destruct angleNum as [|rounds]; [lia|].
    pose proof (advance_first _ _ _ _ _ _ _ _ _ _ Emin Hrefl Eadv) as Hpar.
    destruct parallel as [|p]; [lia|].
    eapply mark_first; [exact Emin | exact E3].
Qed.

(** ** updateSupport and the supports *)

Lemma ix_set_index_ne b i v side :
  i <> side -> ix (set_index b i v) side = ix b side.
Proof.
  intros Hne. unfold ix, set_index. simpl.
  rewrite list_lookup_insert_ne by assumption. reflexivity.
Qed.

Lemma ix_advanced n b i side :
  box_ok n b -> (0 < n)%nat -> (side < 4)%nat ->
  ix (let box := set_index b i (ix b i + 1) in
      if Nat.eqb (ix box i) n then set_index box i 0 else box) side
  = if Nat.eqb i side then (ix b side + 1) mod n else ix b side.
Proof.
  intros Hb Hn Hside. pose proof (ix_lt n b side Hb Hn) as Hlt. cbv zeta.
  destruct (Nat.eqb_spec i side) as [->|Hne].
  - assert (Hlen : (side < length (index b))%nat)
      by (destruct Hb as [-> _]; lia).
    rewrite (ix_set_index b side) by assumption.
    destruct (Nat.eqb_spec (ix b side + 1) n) as [E|E].
    + rewrite ix_set_index by (simpl; rewrite length_insert; assumption).
      rewrite E, Nat.Div0.mod_same. reflexivity.
    + rewrite ix_set_index by assumption.
      rewrite Nat.mod_small by lia. reflexivity.
  - destruct (Nat.eqb _ n); rewrite ?ix_set_index_ne by assumption; reflexivity.
Qed.

Lemma advance_moves angleInfo sort vertices minAngle rounds :
  forall k b parallel h h' b1 parallel1,
    box_ok (length vertices) b ->
    advance angleInfo sort vertices minAngle k rounds b parallel h
      = (h', Ok (b1, parallel1)) ->
    forall side, (side < 4)%nat ->
      ix b1 side
      = (ix b side + ties angleInfo sort minAngle side k rounds)
          mod length vertices.
Proof.
  induction rounds as [|rounds IH];
    intros k b parallel h h' b1 parallel1 Hb Hrun side Hside;
    pose proof (box_ok_pos _ _ Hb) as Hn;
    pose proof (ix_lt _ b side Hb Hn) as Hlt; simpl in Hrun |- *.
  - injection Hrun as _ <- _. rewrite Nat.add_0_r, Nat.mod_small by assumption.
    reflexivity.
  - apply bind_inv in Hrun as (h1 & a & Ea & Hrun).
    unfold tied_on. unfold angle_at in Ea.
    destruct (sort !! k) as [i|]; [|discriminate].
    destruct (angleInfo !! i) as [[a'|]|]; try discriminate.
    injection Ea as _ ->.
    destruct (feq (sinThetaSqr a) (sinThetaSqr minAngle)); cbn [andb].
    + pose proof (box_ok_advanced _ b (indexOfBox a) Hb Hn) as Hb'.
      rewrite (IH _ _ _ _ _ _ _ Hb' Hrun side Hside).
      rewrite (ix_advanced _ b (indexOfBox a) side Hb Hn Hside).
      destruct (Nat.eqb (indexOfBox a) side).
      * rewrite Nat.Div0.add_mod_idemp_l. f_equal. lia.
      * reflexivity.
    + rewrite (IH _ _ _ _ _ _ _ Hb Hrun side Hside). reflexivity.
Qed.

(** X12. The first loop of [updateSupport] moves the support of a side
    forward by one vertex, around the polygon, once for each of the first
    [angleNum.value] sorted candidates that is on that side and has the
    [sinThetaSqr] of the least one, and leaves the other supports where
    they are.  The box it leaves holds these indices: as they are when it
    returns [false], and rotated so that the side of the least angle comes
    first when it returns [true]. *)
Theorem updateSupport_moves_tied_supports
    angleInfo angleNum sort vertices visited b h :
  support_args_ok angleInfo angleNum sort vertices b ->
  exists minAngle h' r b' visited',
    angle_at angleInfo sort 0 h = (h, Ok minAngle) /\
    updateSupport angleInfo angleNum sort vertices visited b h
      = (h', Ok (r, b', visited')) /\
    forall k, (k < 4)%nat ->
      ix b' k
      = let side := if r then (indexOfBox minAngle + k) mod 4 else k in
        (ix b side + ties angleInfo sort minAngle side 0 angleNum)
          mod length vertices.
Proof.
  intros Hargs. pose proof (box_ok_pos _ _ (proj2 Hargs)) as Hn.
  destruct (updateSupport_run angleInfo angleNum sort vertices visited b h
              Hargs Hn)
    as (minAngle & b1 & parallel & Emin & Eadv & Hb1 & _ & _ & _ & _ & Hrun).
  pose proof (advance_moves _ _ _ _ _ _ _ _ _ _ _ _ (proj2 Hargs) Eadv) as Hmove.
  exists minAngle.
  destruct (default false (visited !! ix b1 (indexOfBox minAngle))).
  - exists h, false, b1, visited. split; [exact Emin|]. split; [exact Hrun|].
    intros k Hk. cbv zeta. apply Hmove, Hk.
  - destruct Hrun as (b' & visited' & Hrun & _ & _ & Hidx & _).
    eexists _, true, b', visited'. split; [exact Emin|]. split; [exact Hrun|].
    intros k Hk. cbv zeta.
    assert (Hside : ((indexOfBox minAngle + k) mod 4 < 4)%nat)
      by (apply Nat.mod_upper_bound; lia).
    rewrite <- (Hmove _ Hside). unfold ix at 1. rewrite Hidx.
    destruct k as [|[|[|[|k]]]]; [reflexivity.. | lia].
Qed.
(** ** smallestBox and rotatingCaliper at the bounds *)

(** X8. [smallestBox] fails with a [TypeError] exactly when one of its two
    vertex indices is out of range.  When it returns, the box is over the
    vertices, its base index [index[0]] is [i1], [u[0]] is
    [vertex[i1] - vertex[i0]], [u[1]] is a vector of its own equal to
    [(-u0.y, u0.x)], and [sqrLenU0] is [u0 . u0]. *)
Theorem smallestBox_fails_iff_out_of_range i0 i1 vertices :
  (smallestBox i0 i1 vertices = TypeError <->
   ~ (i0 < length vertices /\ i1 < length vertices)%nat) /\
  (forall b, smallestBox i0 i1 vertices = Ok b ->
     box_ok (length vertices) b /\ ix b 0 = i1 /\
     (exists vi0 vi1, vertices !! i0 = Some vi0 /\ vertices !! i1 = Some vi1 /\
                      u0 b = subVectors vi1 vi0) /\
     u1_ref b = Own (mkVector2 (fneg (y (u0 b))) (x (u0 b))) /\
     sqrLenU0 b = dot (u0 b) (u0 b)).
Proof.
  destruct (vertices !! i1) as [vi1|] eqn:E1.
  - destruct (vertices !! i0) as [vi0|] eqn:E0.
    + destruct (smallestBox_run i0 i1 vertices vi0 vi1 E0 E1)
        as (b & Eb & Hb & Hu0 & Hu1 & Hsq & Hix).
      apply lookup_lt_Some in E0 as H0. apply lookup_lt_Some in E1 as H1.
      split.
      * rewrite Eb. split; [discriminate | tauto].
      * intros b' Eb'. rewrite Eb in Eb'. injection Eb' as <-.
        split; [assumption|]. split; [assumption|].
        split; [eauto|]. split; assumption.
    + apply lookup_ge_None in E0 as H0.
      assert (E : smallestBox i0 i1 vertices = TypeError)
        by (unfold smallestBox; rewrite E1, E0; reflexivity).
      split; [split; [lia | intros _; exact E]|].
      intros b Eb. rewrite E in Eb. discriminate.
  - apply lookup_ge_None in E1 as H1.
    assert (E : smallestBox i0 i1 vertices = TypeError)
      by (unfold smallestBox; rewrite E1; reflexivity).
    split; [split; [lia | intros _; exact E]|].
    intros b Eb. rewrite E in Eb. discriminate.
Qed.

(** X11. [rotatingCaliper] raises (a [TypeError]) exactly when the array it
    is given is empty: on every other array, of whatever shape, the loop
    ends and a rectangle is returned. *)
Theorem rotatingCaliper_fails_iff_empty h :
  (rotatingCaliper h).2 = TypeError <-> hull h = [].
Proof.
  split.
  - intros E. destruct (hull h) as [|p rest] eqn:Eh; [reflexivity|].
    assert (Hne : hull h <> []) by (rewrite Eh; discriminate).
    pose proof (rotatingCaliper_returns h Hne) as Hr.
    apply returns_run in Hr. destruct Hr as (h' & r & Er & _).
    rewrite Er in E. discriminate.
  - intros E. rewrite (rotatingCaliper_empty h E). reflexivity.
Qed.

(** ** The loop and the least area *)

Lemma caliperRound_minBox vertices (l : Locals F) h h' again l' :
  caliperRound vertices l h = (h', Ok (again, l')) ->
  area (minBox l') = area (minBox l) \/
  fle (area (minBox l')) (area (minBox l)) = true.
Proof.
  unfold caliperRound. intros Hrun.
  apply bind_inv in Hrun as (h1 & [[[found b1] a1] n1] & _ & Hrun).
  destruct found; cbn [negb] in Hrun; [|injection Hrun as _ _ <-; by left].
  apply bind_inv in Hrun as (h2 & [[moved b2] visited2] & _ & Hrun).
  destruct moved; cbn [negb] in Hrun; [|injection Hrun as _ _ <-; by left].
  apply bind_inv in Hrun as (h3 & m & Em & Hrun).
  injection Hrun as _ _ <-. cbn [minBox].
  destruct (fle (area b2) (area (minBox l))) eqn:Hle.
  - rewrite cloneDeep_run in Em. injection Em as _ <-. cbn [area]. by right.
  - injection Em as _ <-. by left.
Qed.

Lemma lift_inv {A} (o : outcome A) h h' (a : A) :
  lift o h = (h', Ok a) -> h' = h /\ o = Ok a.
Proof. unfold lift. intros [= <- ->]. auto. Qed.

Lemma caliperLoop_minBox (laws : order_laws F) rounds
    vertices :
  forall l h h' l',
    caliperLoop rounds vertices l h = (h', Ok l') ->
    area (minBox l') = area (minBox l) \/
    fle (area (minBox l')) (area (minBox l)) = true.
Proof.
  induction rounds as [|rounds IH]; intros l h h' l'; simpl.
  - intros [= _ <-]. by left.
  - intros Hrun. apply bind_inv in Hrun as (h1 & [again l1] & E1 & Hrun).
    pose proof (caliperRound_minBox _ _ _ _ _ _ E1) as H1.
    destruct again; cbn [negb] in Hrun.
    + apply IH in Hrun. destruct Hrun as [->|H2]; [exact H1|].
      destruct H1 as [<-|H1]; [by right|].
      right. exact (fle_trans F laws _ _ _ H2 H1).
    + injection Hrun as _ <-. exact H1.
Qed.

(** X10. For every number model whose [<=] is transitive (binary64 is
    one), on every array that is not empty, the box that the loop leaves
    in [minBox] is the first box, the one [smallestBox] builds on the edge
    from the last vertex to the first, or a box whose area compares [<=]
    to the area of the first box: the loop only ever replaces [minBox] by a
    box of at most its area. *)
Theorem best_area_at_most_first (h : Heap F) :
  order_laws F -> hull h <> [] ->
  exists h' b b0,
    bestBox h = (h', Ok (vertices_of (hull h), b)) /\
    smallestBox (length (hull h) - 1) 0 (vertices_of (hull h)) = Ok b0 /\
    (area b = area b0 \/ fle (area b) (area b0) = true).
Proof.
  intros laws Hne. pose proof (bestBox_returns h Hne) as Hr.
  apply returns_run in Hr. destruct Hr as (h' & [vs b] & Hrun & Evs & _).
  cbn [fst snd] in Evs. subst vs. exists h', b.
  pose proof Hrun as Hinv. unfold bestBox in Hinv.
  apply bind_inv in Hinv as (h1 & [vs l0] & Estart & Hinv).
  apply bind_inv in Hinv as (h2 & l1 & Eloop & Hinv).
  injection Hinv as _ Evs <-. subst vs.
  unfold caliperStart in Estart.
  apply bind_inv in Estart as (h3 & hl & Ehull & Estart).
  unfold get_hull in Ehull. injection Ehull as <- <-. cbv zeta in Estart.
  apply bind_inv in Estart as (h4 & b0 & Eb0 & Estart).
  apply lift_inv in Eb0 as [-> Eb0].
  apply bind_inv in Estart as (h5 & bc & Ebc & Estart).
  injection Estart as _ <-.
  exists b0. split; [exact Hrun|]. split.
  - unfold vertices_of in Eb0. rewrite length_map in Eb0. exact Eb0.
  - apply (caliperLoop_minBox laws) in Eloop. exact Eloop.
Qed.

End Rounds.

(** * The parts of a round, on inputs *)

Lemma computeAngles_counts_sides_witness :
  box_ok (length (vertices_of square)) square_box /\
  slots_ok (replicate 4 (@None (AngleInfo float))) /\
  exists h' found b' angleInfo' angleNum,
    computeAngles (vertices_of square) square_box (replicate 4 None)
      (module_start square)
      = (h', Ok (found, b', angleInfo', angleNum)) /\
    angleNum = length (active_sides square_box) /\
    (found = false <->
     ix square_box 0 = ix square_box 1 /\ ix square_box 1 = ix square_box 2 /\
     ix square_box 2 = ix square_box 3) /\
    index b' = index square_box /\ sqrLenU0 b' = sqrLenU0 square_box /\
    area b' = area square_box /\ hull h' = hull (module_start square).
Proof.
  split; [exact (proj2 square_support_args_ok)|]. split; [reflexivity|].
  apply (computeAngles_counts_sides (vertices_of square) square_box
           (replicate 4 None) (module_start square)).
  - exact (proj2 square_support_args_ok).
  - reflexivity.
Defined.

Lemma computeAngles_writes_first_slots_witness :
  box_ok (length (vertices_of square)) square_box /\
  slots_ok (replicate 4 (@None (AngleInfo float))) /\
  exists h' found b' angleInfo' angleNum,
    computeAngles (vertices_of square) square_box (replicate 4 None)
      (module_start square)
      = (h', Ok (found, b', angleInfo', angleNum)) /\
    (forall k side, active_sides square_box !! k = Some side ->
       (k < angleNum)%nat /\
       exists e, edge_from (vertices_of square) (ix square_box side) = Some e /\
         angleInfo' !! k
         = Some (Some (mkAngleInfo
                         (sinThetaSqr_of e
                            (side_direction square_box (u0 square_box)
                               (u1_of (module_start square) square_box) side))
                         side))) /\
    (forall k, (angleNum <= k)%nat ->
       angleInfo' !! k = replicate 4 (@None (AngleInfo float)) !! k).
Proof.
  split; [exact (proj2 square_support_args_ok)|]. split; [reflexivity|].
  apply (computeAngles_writes_first_slots (vertices_of square) square_box
           (replicate 4 None) (module_start square)).
  - exact (proj2 square_support_args_ok).
  - reflexivity.
Defined.

Lemma computeAngles_negates_axes_witness :
  box_ok (length (vertices_of square)) square_box /\
  slots_ok (replicate 4 (@None (AngleInfo float))) /\
  exists h' found b' angleInfo' angleNum,
    computeAngles (vertices_of square) square_box (replicate 4 None)
      (module_start square)
      = (h', Ok (found, b', angleInfo', angleNum)) /\
    u0 b' = (if decide (ix square_box 2 ≠ ix square_box 3)
             then negate (u0 square_box) else u0 square_box) /\
    u1_of h' b' = (if decide (ix square_box 3 ≠ ix square_box 0)
                   then negate (u1_of (module_start square) square_box)
                   else u1_of (module_start square) square_box).
Proof.
  split; [exact (proj2 square_support_args_ok)|]. split; [reflexivity|].
  apply (computeAngles_negates_axes (vertices_of square) square_box
           (replicate 4 None) (module_start square)).
  - exact (proj2 square_support_args_ok).
  - reflexivity.
Defined.

Lemma sortAngles_after_computeAngles_witness :
  box_ok (length (vertices_of square)) square_box /\
  slots_ok (replicate 4 (@None (AngleInfo float))) /\
  exists h' found b' angleInfo' angleNum,
    computeAngles (vertices_of square) square_box (replicate 4 None)
      (module_start square)
      = (h', Ok (found, b', angleInfo', angleNum)) /\
    (found = true ->
     sortAngles angleInfo' angleNum
       ≡ₚ candidate_slots angleNum
          ++ filter (fun i => (angleNum <= i)%nat)
               (filled_from 0 (replicate 4 (@None (AngleInfo float))))) /\
    (found = true ->
     replicate 4 (@None (AngleInfo float)) = replicate 4 None ->
     sortAngles angleInfo' angleNum ≡ₚ candidate_slots angleNum).
Proof.
  split; [exact (proj2 square_support_args_ok)|]. split; [reflexivity|].
  apply (sortAngles_after_computeAngles (vertices_of square) square_box
           (replicate 4 None) (module_start square)).
  - exact (proj2 square_support_args_ok).
  - reflexivity.
Defined.

Lemma right_triangle_args_ok :
  support_args_ok right_triangle_angleInfo 3 [2; 0; 1]%nat
    (vertices_of right_triangle) right_triangle_box.
Proof.
  split.
  - intros k Hk. simpl in Hk.
    destruct k as [|[|[|k]]]; [eexists _, _; split; reflexivity.. | lia].
  - split; [reflexivity|]. repeat constructor; simpl; lia.
Defined.

Lemma updateSupport_marks_new_base_witness :
  support_args_ok right_triangle_angleInfo 3 [2; 0; 1]%nat
    (vertices_of right_triangle) right_triangle_box /\
  exists h' r b' visited',
    updateSupport right_triangle_angleInfo 3 [2; 0; 1]%nat
      (vertices_of right_triangle) [true; false; false] right_triangle_box
      (module_start right_triangle)
      = (h', Ok (r, b', visited')) /\
    box_ok (length (vertices_of right_triangle)) b' /\
    (forall j, default false ([true; false; false] !! j) = true ->
               default false (visited' !! j) = true) /\
    (r = true ->
     default false ([true; false; false] !! ix b' 0) = false /\
     default false (visited' !! ix b' 0) = true /\
     hull_edge (vertices_of right_triangle) (ix b' 0) = Some (u0 b')).
Proof.
  split; [exact right_triangle_args_ok|].
  apply (updateSupport_marks_new_base right_triangle_angleInfo 3
           [2; 0; 1]%nat
           (vertices_of right_triangle) [true; false; false] right_triangle_box
           (module_start right_triangle)).
  - exact right_triangle_args_ok.
  - lia.
  - intros i a Ei Ea. injection Ei as <-. injection Ea as <-.
    split; [simpl; lia | reflexivity].
Defined.

Lemma best_area_at_most_first_witness :
  order_laws float /\ hull (module_start square) <> [] /\
  exists h' b b0,
    bestBox (module_start square)
      = (h', Ok (vertices_of (hull (module_start square)), b)) /\
    smallestBox (length (hull (module_start square)) - 1) 0
      (vertices_of (hull (module_start square))) = Ok b0 /\
    (area b = area b0 \/ fle (area b) (area b0) = true).
Proof.
  split; [exact float_order_laws|]. split; [discriminate|].
  apply (best_area_at_most_first (module_start square)).
  - exact float_order_laws.
  - discriminate.
Defined.

Lemma updateSupport_moves_tied_supports_witness :
  support_args_ok right_triangle_angleInfo 3 [2; 0; 1]%nat
    (vertices_of right_triangle) right_triangle_box /\
  exists minAngle h' r b' visited',
    angle_at right_triangle_angleInfo [2; 0; 1]%nat 0
      (module_start right_triangle)
      = (module_start right_triangle, Ok minAngle) /\
    updateSupport right_triangle_angleInfo 3 [2; 0; 1]%nat
      (vertices_of right_triangle) [true; false; false] right_triangle_box
      (module_start right_triangle)
      = (h', Ok (r, b', visited')) /\
    forall k, (k < 4)%nat ->
      ix b' k
      = let side := if r then (indexOfBox minAngle + k) mod 4 else k in
        (ix right_triangle_box side
         + ties right_triangle_angleInfo [2; 0; 1]%nat minAngle side 0 3)
          mod length (vertices_of right_triangle).
Proof.
  split; [exact right_triangle_args_ok|].
  apply (updateSupport_moves_tied_supports right_triangle_angleInfo 3
           [2; 0; 1]%nat
           (vertices_of right_triangle) [true; false; false] right_triangle_box
           (module_start right_triangle)).
  exact right_triangle_args_ok.
Defined.
